(** * dtslint: the lint driver ([src/lint.ts])

    A shallow embedding of [lint.ts]: the version range resolver [range],
    the raw-text content policies [testNoTsIgnore] and
    [testNoTslintDisables], the path policy [isTypesVersionPath], the
    configuration loader [getLintConfig] and the driver [lint], followed by
    the properties the specification states about them. *)

From Stdlib Require Import ZArith Lia Ascii DecimalString.
From stdpp Require Import base list sorting strings gmap.

Local Open Scope Z_scope.

(** ** Completions: a JavaScript call either returns or throws *)

(** The [assert(...)] calls of [range] carry no message; an assertion
    failure is identified by the statement that raised it. *)
Inductive assertion : Type :=
  | assert_max_is_local      (* line 131: assert(maxVersion === "local") *)
  | assert_max_is_latest     (* line 135: assert(maxVersion === TypeScriptVersion.latest) *)
  | assert_max_not_local     (* line 138: assert(maxVersion !== "local") *)
  | assert_min_shipped       (* line 141: assert(minIdx >= 0) *)
  | assert_max_after_min.    (* line 146: assert(maxIdx >= minIdx) *)

Inductive exn : Type :=
  | AssertionError (a : assertion)   (* thrown by node's [assert] *)
  | Error (message : string)         (* [throw new Error(message)] *)
  | FatalError (message : string).   (* thrown by an external collaborator *)

Inductive completion (A : Type) : Type :=
  | Return (a : A)
  | Throw (e : exn).
Arguments Return {A} a.
Arguments Throw {A} e.

Global Instance completion_ret : MRet completion := @Return.
Global Instance completion_bind : MBind completion := λ A B f m,
  match m with
  | Return a => f a
  | Throw e => Throw e
  end.

Definition assert (a : assertion) (cond : bool) : completion unit :=
  if cond then Return tt else Throw (AssertionError a).

(** ** Arrays *)

Module JsArray.
(** [Array.prototype.indexOf]: the first index holding a value strictly
    equal to [v], or -1. *)
Definition indexOf (l : list string) (v : string) : Z :=
  match list_find (λ x, x = v) l with
  | Some (i, _) => Z.of_nat i
  | None => -1
  end.

(** The clamping of a relative index done by [Array.prototype.slice]. *)
Definition relative_index (len k : Z) : Z :=
  if k <? 0 then Z.max (len + k) 0 else Z.min k len.

(** [l.slice(start, end)], and [l.slice(start)] when [end_] is [None]. *)
Definition slice {A} (l : list A) (start : Z) (end_ : option Z) : list A :=
  let len := Z.of_nat (length l) in
  let k := relative_index len start in
  let final := match end_ with Some e => relative_index len e | None => len end in
  take (Z.to_nat (final - k)) (drop (Z.to_nat k) l).
End JsArray.

(** ** Strings

    A JavaScript string is a sequence of code units and every offset counts
    code units; the embedding uses [string], whose units are 8-bit. *)

Module JsString.
(** [s.indexOf(pat, from)]; [None] stands for the result -1. *)
Definition indexOf (s pat : string) (from : nat) : option nat :=
  String.index from pat s.

(** [s.charAt(i)]: the one-unit string at [i], or the empty string. *)
Definition charAt (s : string) (i : nat) : string :=
  match String.get i s with
  | Some c => String c EmptyString
  | None => EmptyString
  end.

(** [s.includes(pat)]. *)
Definition includes (s pat : string) : bool :=
  match String.index 0 pat s with Some _ => true | None => false end.

(** [s.startsWith(p)]. *)
Definition startsWith (s p : string) : bool := String.prefix p s.

(** [s.slice(n)] for [0 <= n]. *)
Definition slice_from (s : string) (n : nat) : string :=
  String.substring n (String.length s - n) s.

Fixpoint map (f : ascii → ascii) (s : string) : string :=
  match s with
  | EmptyString => EmptyString
  | String c s' => String (f c) (map f s')
  end.

(** The last code unit, if any. *)
Fixpoint last (s : string) : option ascii :=
  match s with
  | EmptyString => None
  | String c EmptyString => Some c
  | String _ s' => last s'
  end.

(** [s.split(sep)] for a one-unit separator. *)
Fixpoint split (sep : ascii) (s : string) : list string :=
  match s with
  | EmptyString => [EmptyString]
  | String c s' =>
      if bool_decide (c = sep) then EmptyString :: split sep s'
      else match split sep s' with
           | seg :: segs => String c seg :: segs
           | [] => [String c EmptyString]
           end
  end.

(** [segs.join(sep)]. *)
Definition join (sep : string) (segs : list string) : string :=
  String.concat sep segs.

(** The decimal rendering of a natural number. *)
Definition of_nat (n : nat) : string := NilEmpty.string_of_uint (Nat.to_uint n).

Definition is_lower (c : ascii) : bool :=
  (97 <=? nat_of_ascii c)%nat && (nat_of_ascii c <=? 122)%nat.
Definition is_digit (c : ascii) : bool :=
  (48 <=? nat_of_ascii c)%nat && (nat_of_ascii c <=? 57)%nat.
(** [c.toUpperCase()] for a unit in [a-z]. *)
Definition toUpperCase (c : ascii) : ascii :=
  if is_lower c then ascii_of_nat (nat_of_ascii c - 32) else c.
End JsString.

(** ** VersionRangeResolver: [range] *)

Abbreviation TsVersion := string (only parsing).

Section VersionRange.
(** [TypeScriptVersion.shipped] and [TypeScriptVersion.latest] come from the
    package [@definitelytyped/typescript-versions]. *)
Variable shipped : list TsVersion.
Variable latest : TsVersion.

Definition range (minVersion maxVersion : TsVersion) : completion (list TsVersion) :=
  if bool_decide (minVersion = "local") then
    assert assert_max_is_local (bool_decide (maxVersion = "local"));;
    Return ["local"]
  else if bool_decide (minVersion = latest) then
    assert assert_max_is_latest (bool_decide (maxVersion = latest));;
    Return [latest]
  else
    assert assert_max_not_local (negb (bool_decide (maxVersion = "local")));;
    let minIdx := JsArray.indexOf shipped minVersion in
    assert assert_min_shipped (0 <=? minIdx);;
    if bool_decide (maxVersion = latest) then
      Return (JsArray.slice shipped minIdx None ++ [latest])
    else
      let maxIdx := JsArray.indexOf shipped maxVersion in
      assert assert_max_after_min (minIdx <=? maxIdx);;
      Return (JsArray.slice shipped minIdx (Some (maxIdx + 1))).

(** The order of releases: the position in the shipped sequence. *)
Definition released_before (a b : TsVersion) : Prop :=
  JsArray.indexOf shipped a < JsArray.indexOf shipped b.
End VersionRange.

(** ** ContentPolicyScanner: [testNoTsIgnore] and [testNoTslintDisables] *)

Record Err : Type := { pos : nat; message : string }.

Definition tsIgnore : string := "ts-ignore".
Definition tsIgnore_message : string := "'ts-ignore' is forbidden.".

Definition testNoTsIgnore (text : string) : option Err :=
  match JsString.indexOf text tsIgnore 0 with
  | None => None
  | Some pos => Some {| pos := pos; message := tsIgnore_message |}
  end.

Definition tslintDisable : string := "tslint:disable".
Definition tslintDisable_message : string :=
  "'tslint:disable' is forbidden. " +:+
  "('tslint:disable:rulename', tslint:disable-line' and 'tslint:disable-next-line' are allowed.)".

(** One pass through the body of the [while (true)] loop, entered with
    [lastIndex]: it returns from the function or goes round again with a new
    [lastIndex]. *)
Inductive iteration : Type :=
  | Returns (r : option Err)
  | Continues (lastIndex : nat).

Definition testNoTslintDisables_body (text : string) (lastIndex : nat) : iteration :=
  match JsString.indexOf text tslintDisable lastIndex with
  | None => Returns None
  | Some pos =>
      let end_ := (pos + String.length tslintDisable)%nat in
      let nextChar := JsString.charAt text end_ in
      if bool_decide (nextChar ≠ "-") && bool_decide (nextChar ≠ ":") then
        Returns (Some {| pos := pos; message := tslintDisable_message |})
      else Continues end_
  end.

(** The runs of the loop that return: [loop_returns text lastIndex r] when
    the loop entered with [lastIndex] returns [r] after finitely many
    iterations. *)
Inductive loop_returns (text : string) : nat → option Err → Prop :=
  | loop_return lastIndex r :
      testNoTslintDisables_body text lastIndex = Returns r →
      loop_returns text lastIndex r
  | loop_continue lastIndex lastIndex' r :
      testNoTslintDisables_body text lastIndex = Continues lastIndex' →
      loop_returns text lastIndex' r →
      loop_returns text lastIndex r.

(** The loop run for at most [fuel] iterations; [None] when they do not
    suffice. *)
Fixpoint testNoTslintDisables_loop (fuel : nat) (text : string) (lastIndex : nat)
  : option (option Err) :=
  match fuel with
  | O => None
  | S fuel' =>
      match testNoTslintDisables_body text lastIndex with
      | Returns r => Some r
      | Continues lastIndex' => testNoTslintDisables_loop fuel' text lastIndex'
      end
  end.

(** One more iteration than the text has code units always suffices
    ([testNoTslintDisables_loop_total]), so the default is never taken. *)
Definition testNoTslintDisables (text : string) : option Err :=
  default None (testNoTslintDisables_loop (S (String.length text)) text 0).

(** [testNoTsIgnore(text) || testNoTslintDisables(text)]: an [Err] object is
    truthy, [undefined] is falsy. *)
Definition contentPolicyError (text : string) : option Err :=
  match testNoTsIgnore text with
  | Some err => Some err
  | None => testNoTslintDisables text
  end.

(** The occurrences the policies speak of: [pat] occurs in [text] at offset
    [p]; an occurrence of [tslint:disable] is qualified when a hyphen or a
    colon follows it at once, and bare otherwise. *)
Definition occurs_at (pat text : string) (p : nat) : Prop :=
  String.substring p (String.length pat) text = pat.

Definition qualified_disable_at (text : string) (p : nat) : Prop :=
  occurs_at tslintDisable text p
  ∧ (JsString.charAt text (p + String.length tslintDisable) = "-"
     ∨ JsString.charAt text (p + String.length tslintDisable) = ":").

Definition bare_disable_at (text : string) (p : nat) : Prop :=
  occurs_at tslintDisable text p
  ∧ JsString.charAt text (p + String.length tslintDisable) ≠ "-"
  ∧ JsString.charAt text (p + String.length tslintDisable) ≠ ":".

Global Instance occurs_at_dec pat text p : Decision (occurs_at pat text p).
Proof. unfold occurs_at. apply _. Defined.
Global Instance qualified_disable_at_dec text p : Decision (qualified_disable_at text p).
Proof. unfold qualified_disable_at. apply _. Defined.
Global Instance bare_disable_at_dec text p : Decision (bare_disable_at text p).
Proof. unfold bare_disable_at. apply _. Defined.

(** [p] is the least offset with the property [P]. *)
Definition first_at (P : nat → Prop) (p : nat) : Prop :=
  P p ∧ ∀ q, (q < p)%nat → ¬ P q.

(** ** PathPolicy: [normalizePath] and [isTypesVersionPath] *)

(** Node's [path.normalize] on a POSIX platform: the segments between
    slashes, with empty and [.] segments dropped and [..] resolved against
    the segment before it. *)
Module NodePath.
(** One segment of [normalizeString]; [res] holds the segments kept so
    far, the last one first. *)
Definition normalize_segment (allowAboveRoot : bool) (res : list string) (seg : string)
  : list string :=
  if bool_decide (seg = EmptyString) || bool_decide (seg = ".") then res
  else if bool_decide (seg = "..") then
    match res with
    | top :: res' =>
        if bool_decide (top = "..") then (if allowAboveRoot then ".." :: res else res)
        else res'
    | [] => if allowAboveRoot then [".."] else []
    end
  else seg :: res.

Definition normalizeString (path : string) (allowAboveRoot : bool) : string :=
  JsString.join "/"
    (rev (foldl (normalize_segment allowAboveRoot) [] (JsString.split "/" path))).

Definition posix_normalize (path : string) : string :=
  if bool_decide (path = EmptyString) then "."
  else
    let isAbsolute := JsString.startsWith path "/" in
    let trailingSeparator := bool_decide (JsString.last path = Some "/"%char) in
    let path := normalizeString path (negb isAbsolute) in
    if bool_decide (path = EmptyString) then
      (if isAbsolute then "/" else if trailingSeparator then "./" else ".")
    else
      let path := if trailingSeparator then path +:+ "/" else path in
      if isAbsolute then "/" +:+ path else path.
End NodePath.

(** The stacks of kept segments in two runs of [normalizeString] whose
    first segments are [x] and [y]: equal, or different in the first
    segment only, which lies at the bottom. *)
Definition stacks_related (x y : string) (res1 res2 : list string) : Prop :=
  res1 = res2 ∨ ∃ kept, res1 = kept ++ [x] ∧ res2 = kept ++ [y].

(** What [isTypesVersionPath] evaluates to: [subdirPath && test(...)] is
    [undefined] or the empty string when [subdirPath] is, a boolean
    otherwise. *)
Inductive js_value : Type :=
  | js_undefined
  | js_empty_string
  | js_boolean (b : bool).

Definition truthy (v : js_value) : bool :=
  match v with
  | js_boolean b => b
  | _ => false
  end.

(** Modelled from the spec: [withoutPrefix] of [./util] is not part of the
    sources at hand; the spec has [isTypesVersionPath] compute "the file path
    relative to the project root", and the caller tests the result for
    truthiness: the rest of [s] after [prefix], or [undefined] when [s] does
    not start with [prefix]. *)
Definition withoutPrefix (s prefix : string) : option string :=
  if JsString.startsWith s prefix then Some (JsString.slice_from s (String.length prefix))
  else None.

(** [.replace(/\\/g, "/")] *)
Definition replace_backslashes (s : string) : string :=
  JsString.map (λ c, if bool_decide (c = "\"%char) then "/"%char else c) s.

(** [.replace(/^[a-z](?=:)/, c => c.toUpperCase())] *)
Definition uppercase_drive_letter (s : string) : string :=
  match s with
  | String c (String ":" _ as rest) =>
      if JsString.is_lower c then String (JsString.toUpperCase c) rest else s
  | _ => s
  end.

(** [\d+] is greedy and no digit matches [\.], so the digits can be consumed
    without backtracking. *)
Fixpoint skip_digits (s : string) : string :=
  match s with
  | String c s' => if JsString.is_digit c then skip_digits s' else s
  | EmptyString => EmptyString
  end.

(** [/^\/ts\d+\.\d/.test(s)] *)
Definition ts_version_dir_test (s : string) : bool :=
  match s with
  | String "/" (String "t" (String "s" (String d rest))) =>
      JsString.is_digit d &&
      match skip_digits rest with
      | String "." (String d' _) => JsString.is_digit d'
      | _ => false
      end
  | _ => false
  end.

Section PathPolicy.
(** [normalize] of node's [path] module; which one it is depends on the
    platform. *)
Variable normalize : string → string.

Definition normalizePath (file : string) : string :=
  uppercase_drive_letter (replace_backslashes (normalize file)).

Definition isTypesVersionPath (fileName dirPath : string) : js_value :=
  let normalFileName := normalizePath fileName in
  let normalDirPath := normalizePath dirPath in
  let subdirPath := withoutPrefix normalFileName normalDirPath in
  match subdirPath with
  | None => js_undefined
  | Some subdirPath =>
      if bool_decide (subdirPath = EmptyString) then js_empty_string
      else js_boolean (ts_version_dir_test subdirPath)
  end.
End PathPolicy.

(** Two paths that are equal, or differ only in the case of a leading drive
    letter; and what the path policy needs of the platform's [normalize]:
    spelling the drive letter of its argument in upper case changes the
    result at most in that letter. *)
Definition same_up_to_drive_case (a b : string) : Prop :=
  a = b
  ∨ ∃ c rest, JsString.is_lower c = true
              ∧ a = String c (String ":" rest)
              ∧ b = String (JsString.toUpperCase c) (String ":" rest).

Definition respects_drive_case (normalize : string → string) : Prop :=
  ∀ c rest, JsString.is_lower c = true →
    same_up_to_drive_case (normalize (String c (String ":" rest)))
                          (normalize (String (JsString.toUpperCase c) (String ":" rest))).

(** ** ConfigResolver: [getLintConfig] *)

Inductive RuleSeverity : Type := warning | error | off.

Global Instance RuleSeverity_eq_dec : EqDecision RuleSeverity.
Proof. solve_decision. Defined.

(** The entries of [versionsToTest] and the options handed to the [expect]
    rule. *)
Record VersionToTest : Type := { versionName : TsVersion; path : string }.
Record ExpectOptions : Type :=
  { tsconfigPath : string; versionsToTest : list VersionToTest }.

(** [ruleArguments] is [any[]]: whatever the configuration file held, or the
    options [getLintConfig] stores. *)
Inductive RuleArgument : Type :=
  | configured_argument (json : string)
  | expect_argument (options : ExpectOptions).

(** [Partial<IOptions>]: every field may be missing. *)
Record IOptions : Type :=
  { ruleArguments : option (list RuleArgument);
    ruleSeverity : option RuleSeverity }.

Record IConfigurationFile : Type :=
  { extends : list string;
    jsRules : gmap string IOptions;
    rulesDirectory : list string;
    rules : gmap string IOptions }.

Definition expect_rule_message : string :=
  "'expect' rule should be enabled, else compile errors are ignored".

Section ConfigResolver.
Variable shipped : list TsVersion.
Variable latest : TsVersion.
(** [typeScriptPath] of [@definitelytyped/utils]. *)
Variable typeScriptPath : TsVersion → option string → string.
(** [pathExists] of [fs-extra], [join] of [path] and node's [__dirname]. *)
Variable pathExists : string → bool.
Variable joinPaths : list string → string.
Variable __dirname : string.
(** [Configuration.findConfiguration(configPath, ...).results] of tslint: it
    throws when the file cannot be read or parsed. *)
Variable findConfiguration : string → completion (option IConfigurationFile).

Definition getLintConfig (expectedConfigPath tsconfigPath : string)
    (minVersion maxVersion : TsVersion) (tsLocal : option string)
  : completion IConfigurationFile :=
  let configExists := pathExists expectedConfigPath in
  let configPath :=
    if configExists then expectedConfigPath
    else joinPaths [__dirname; ".."; "dtslint.json"] in
  config ← findConfiguration configPath;
  match config with
  | None => Throw (Error ("Could not load config at " +:+ configPath))
  | Some config =>
      let expectRule := rules config !! "expect" in
      if bool_decide (expectRule = None)
         || bool_decide (expectRule ≫= ruleSeverity ≠ Some error)
      then Throw (Error expect_rule_message)
      else
        match expectRule with
        | Some expectRule =>
            versions ← range shipped latest minVersion maxVersion;
            let versionsToTest :=
              (λ versionName,
                 {| versionName := versionName;
                    path := typeScriptPath versionName tsLocal |}) <$> versions in
            let expectOptions :=
              {| tsconfigPath := tsconfigPath; versionsToTest := versionsToTest |} in
            let expectRule :=
              {| ruleArguments := Some [expect_argument expectOptions];
                 ruleSeverity := ruleSeverity expectRule |} in
            Return {| extends := extends config;
                      jsRules := jsRules config;
                      rulesDirectory := rulesDirectory config;
                      rules := <["expect" := expectRule]> (rules config) |}
        | None => Return config
        end
  end.

(** The configuration file that [getLintConfig] reads: the expected one if
    it exists, the built-in [dtslint.json] otherwise. *)
Definition effective_config_path (expectedConfigPath : string) : string :=
  if pathExists expectedConfigPath then expectedConfigPath
  else joinPaths [__dirname; ".."; "dtslint.json"].
End ConfigResolver.

(** ** LintOrchestrator: [lint] *)

Record LineAndCharacter : Type := { line : nat; character : nat }.

(** A source file of the program, with its method
    [getLineAndCharacterOfPosition]. *)
Record SourceFile : Type :=
  { fileName : string;
    text : string;
    getLineAndCharacterOfPosition : nat → LineAndCharacter }.

Record Program : Type :=
  { getSourceFiles : list SourceFile;
    isSourceFileDefaultLibrary : SourceFile → bool }.

Record ILinterOptions : Type := { fix_ : bool; formatter : string }.

Definition double_quote : string := String "034"%char EmptyString.

(** [JSON.stringify] of a [LineAndCharacter]. *)
Definition JSON_stringify (place : LineAndCharacter) : string :=
  "{" +:+ double_quote +:+ "line" +:+ double_quote +:+ ":" +:+ JsString.of_nat (line place)
  +:+ "," +:+ double_quote +:+ "character" +:+ double_quote +:+ ":"
  +:+ JsString.of_nat (character place) +:+ "}".

Definition getConfigPath (joinPaths : list string → string) (dirPath : string) : string :=
  joinPaths [dirPath; "tslint.json"].

Section LintOrchestrator.
Variable shipped : list TsVersion.
Variable latest : TsVersion.
Variable typeScriptPath : TsVersion → option string → string.
Variable pathExists : string → bool.
Variable joinPaths : list string → string.
Variable __dirname : string.
Variable findConfiguration : string → completion (option IConfigurationFile).
Variable normalize : string → string.
(** [Linter.createProgram] of tslint; it throws when the project
    descriptor cannot be read. *)
Variable createProgram : string → completion Program.
(** The rule engine behind [linter.lint]: the failures of one file under a
    configuration (or an exception), and the formatter that renders the
    failures collected by [linter.getResult]. *)
Variable RuleFailure : Type.
Variable applyAllRules :
  Program → string → string → IConfigurationFile → completion (list RuleFailure).
Variable format : string → list RuleFailure → string.

(** A [Linter] object: its options, its program and the failures
    accumulated by the calls of [lint]. *)
Record Linter : Type :=
  { options : ILinterOptions; program : Program; failures : list RuleFailure }.

Definition new_Linter (options : ILinterOptions) (program : Program) : Linter :=
  {| options := options; program := program; failures := [] |}.

Definition Linter_lint (linter : Linter) (fileName source : string)
    (configuration : IConfigurationFile) : completion Linter :=
  fileFailures ← applyAllRules (program linter) fileName source configuration;
  Return {| options := options linter; program := program linter;
            failures := failures linter ++ fileFailures |}.

Record LintResult : Type := { result_failures : list RuleFailure; output : string }.

Definition Linter_getResult (linter : Linter) : LintResult :=
  {| result_failures := failures linter;
     output := format (formatter (options linter)) (failures linter) |}.

(** The [return] inside the loop. *)
Definition content_report (file : SourceFile) (err : Err) : string :=
  let place := getLineAndCharacterOfPosition file (pos err) in
  "At " +:+ fileName file +:+ ":" +:+ JSON_stringify place +:+ ": " +:+ message err.

(** The [for] loop over the source files: it ends the run with a report
    ([inl]), or falls through with the linter ([inr]). *)
Fixpoint lint_files (lintProgram : Program) (dirPath : string) (isLatest : bool)
    (config : IConfigurationFile) (files : list SourceFile) (linter : Linter)
  : completion (string + Linter) :=
  match files with
  | [] => Return (inr linter)
  | file :: files =>
      if isSourceFileDefaultLibrary lintProgram file then
        lint_files lintProgram dirPath isLatest config files linter
      else
        let err :=
          if negb (JsString.includes (fileName file) "node_modules")
          then contentPolicyError (text file) else None in
        match err with
        | Some err => Return (inl (content_report file err))
        | None =>
            linter ←
              (if negb isLatest
                  || negb (truthy (isTypesVersionPath normalize (fileName file) dirPath))
               then Linter_lint linter (fileName file) (text file) config
               else Return linter);
            lint_files lintProgram dirPath isLatest config files linter
        end
  end.

Definition lint (dirPath : string) (minVersion maxVersion : TsVersion)
    (isLatest expectOnly : bool) (tsLocal : option string)
  : completion (option string) :=
  let tsconfigPath := joinPaths [dirPath; "tsconfig.json"] in
  lintProgram ← createProgram tsconfigPath;
  let lintOptions := {| fix_ := false; formatter := "stylish" |} in
  let linter := new_Linter lintOptions lintProgram in
  let configPath :=
    if expectOnly then joinPaths [__dirname; ".."; "dtslint-expect-only.json"]
    else getConfigPath joinPaths dirPath in
  config ←
    getLintConfig shipped latest typeScriptPath pathExists joinPaths __dirname
      findConfiguration configPath tsconfigPath minVersion maxVersion tsLocal;
  outcome ← lint_files lintProgram dirPath isLatest config
              (getSourceFiles lintProgram) linter;
  match outcome with
  | inl report => Return (Some report)
  | inr linter =>
      let result := Linter_getResult linter in
      Return (if bool_decide (length (result_failures result) ≠ 0%nat)
              then Some (output result) else None)
  end.

(** Whether the loop hands [file] to the rule engine. *)
Definition structurally_linted (lintProgram : Program) (dirPath : string)
    (isLatest : bool) (file : SourceFile) : Prop :=
  isSourceFileDefaultLibrary lintProgram file = false
  ∧ negb isLatest || negb (truthy (isTypesVersionPath normalize (fileName file) dirPath))
    = true.

(** Whether the loop scans the text of [file]. *)
Definition content_scanned (lintProgram : Program) (file : SourceFile) : Prop :=
  isSourceFileDefaultLibrary lintProgram file = false
  ∧ JsString.includes (fileName file) "node_modules" = false.
End LintOrchestrator.

Arguments options {RuleFailure} _.
Arguments program {RuleFailure} _.
Arguments failures {RuleFailure} _.
Arguments result_failures {RuleFailure} _.
Arguments output {RuleFailure} _.

(** ** Stand-ins for the external collaborators

    Small concrete versions of the packages, the file system, the compiler
    front end and the rule engine, on which the statements below are run. *)

Module Fixture.
Definition shipped : list TsVersion := ["3.8"; "3.9"; "4.0"; "4.1"].
Definition latest : TsVersion := "4.2".

Definition typeScriptPath (version : TsVersion) (tsLocal : option string) : string :=
  if bool_decide (version = "local") then default EmptyString tsLocal +:+ "/typescript.js"
  else "/installs/" +:+ version +:+ "/node_modules/typescript".

(** [path.join] on a POSIX platform: the non-empty segments joined with a
    slash and normalized. *)
Definition joinPaths (segments : list string) : string :=
  NodePath.posix_normalize
    (JsString.join "/" (filter (λ s, s ≠ EmptyString) segments)).

Definition __dirname : string := "/dtslint/bin".

Definition expect_entry (severity : RuleSeverity) : IOptions :=
  {| ruleArguments := None; ruleSeverity := Some severity |}.

Definition config_with (ruleset : gmap string IOptions) : IConfigurationFile :=
  {| extends := []; jsRules := ∅; rulesDirectory := []; rules := ruleset |}.

(** The built-in configurations enable [expect]; the project
    [/warned] has its own [tslint.json], which downgrades it, and the
    project [/bare] has one without the rule. *)
Definition pathExists (p : string) : bool :=
  bool_decide (p = "/warned/tslint.json") || bool_decide (p = "/bare/tslint.json").

Definition findConfiguration (configPath : string)
  : completion (option IConfigurationFile) :=
  if bool_decide (configPath = "/warned/tslint.json") then
    Return (Some (config_with {["expect" := expect_entry warning]}))
  else if bool_decide (configPath = "/bare/tslint.json") then
    Return (Some (config_with {["no-any" := expect_entry error]}))
  else if bool_decide (configPath = "/dtslint/dtslint.json")
          || bool_decide (configPath = "/dtslint/dtslint-expect-only.json") then
    Return (Some (config_with {["expect" := expect_entry error]}))
  else Throw (FatalError ("Failed to load " +:+ configPath)).

(** Lines end at a line feed. *)
Fixpoint line_and_character (text : string) (pos line character : nat)
  : LineAndCharacter :=
  match pos, text with
  | S pos', String c text' =>
      if bool_decide (c = "010"%char) then line_and_character text' pos' (S line) 0
      else line_and_character text' pos' line (S character)
  | _, _ => {| line := line; character := character |}
  end.

Definition source_file (name content : string) : SourceFile :=
  {| fileName := name; text := content;
     getLineAndCharacterOfPosition := λ pos, line_and_character content pos 0 0 |}.

Definition program_of (files : list SourceFile) : Program :=
  {| getSourceFiles := files;
     isSourceFileDefaultLibrary :=
       λ file, JsString.includes (fileName file) "typescript/lib/lib." |}.

(** Forty code units without a directive. *)
Definition forty : string := "declare const answer: number; /* pad */ ".

Definition ignoring : string := forty +:+ "// @ts-ignore".

(** A text the stand-in rule engine fails. *)
Definition loose : string := "declare const anything: any;".

(** The project [/p] has a file with [// @ts-ignore] at offset 40, between
    two files that the rule engine fails; [/warned] and [/bare] have the
    file with the directive; in [/dep] the same text sits under
    [node_modules]; in [/twice] the directive is named once more, earlier;
    [/clean] has no directive outside the default library, and [/loose] has
    none either, but a file that the rule engine fails. *)
Definition createProgram (tsconfigPath : string) : completion Program :=
  if bool_decide (tsconfigPath = "/p/tsconfig.json") then
    Return (program_of [source_file "/p/first.d.ts" loose;
                        source_file "/p/index.d.ts" ignoring;
                        source_file "/p/last.d.ts" loose])
  else if bool_decide (tsconfigPath = "/loose/tsconfig.json") then
    Return (program_of [source_file "/loose/index.d.ts" loose;
                        source_file "/loose/other.d.ts" forty])
  else if bool_decide (tsconfigPath = "/warned/tsconfig.json") then
    Return (program_of [source_file "/warned/index.d.ts" ignoring])
  else if bool_decide (tsconfigPath = "/bare/tsconfig.json") then
    Return (program_of [source_file "/bare/index.d.ts" ignoring])
  else if bool_decide (tsconfigPath = "/dep/tsconfig.json") then
    Return (program_of [source_file "/dep/node_modules/x/index.d.ts" ignoring])
  else if bool_decide (tsconfigPath = "/twice/tsconfig.json") then
    Return (program_of
      [source_file "/twice/index.d.ts"
         "/* ts-ignore */ const answer: number=0; // @ts-ignore"])
  else if bool_decide (tsconfigPath = "/clean/tsconfig.json") then
    Return (program_of [source_file "/typescript/lib/lib.d.ts" "// tslint:disable";
                        source_file "/clean/index.d.ts" forty;
                        source_file "/clean/ts3.8/index.d.ts" forty])
  else Throw (FatalError ("Cannot read " +:+ tsconfigPath)).

(** The rule engine fails the files whose text mentions [any]. *)
Definition applyAllRules (_ : Program) (fileName source : string)
    (_ : IConfigurationFile) : completion (list string) :=
  if JsString.includes source "any" then Return [fileName +:+ ": no any"]
  else Return [].

Definition format (_ : string) (failures : list string) : string :=
  JsString.join "; " failures.

(** Ten qualified occurrences of [tslint:disable], then a bare one. *)
Definition qualified_pair : string :=
  "// tslint:disable-next-line // tslint:disable:no-any ".
Definition ten_qualified_then_bare : string :=
  qualified_pair +:+ qualified_pair +:+ qualified_pair +:+ qualified_pair
  +:+ qualified_pair +:+ "// tslint:disable".

Definition lint :=
  lint shipped latest typeScriptPath pathExists joinPaths __dirname findConfiguration
    NodePath.posix_normalize createProgram string applyAllRules format.
End Fixture.

(** ** More stand-ins *)

Module Blanket.
(** The project [/blanket] has one file, which disables every rule. *)
Definition createProgram (tsconfigPath : string) : completion Program :=
  if bool_decide (tsconfigPath = "/blanket/tsconfig.json") then
    Return (Fixture.program_of
              [Fixture.source_file "/blanket/index.d.ts" "/* x */ // tslint:disable"])
  else Fixture.createProgram tsconfigPath.

Definition lint :=
  lint Fixture.shipped Fixture.latest Fixture.typeScriptPath Fixture.pathExists
    Fixture.joinPaths Fixture.__dirname Fixture.findConfiguration
    NodePath.posix_normalize createProgram string Fixture.applyAllRules Fixture.format.

(** What the stand-in rule engine finds in a file. *)
Definition found (file : SourceFile) : list string :=
  if JsString.includes (text file) "any" then [fileName file +:+ ": no any"] else [].

(** A rule engine that, unlike the stand-in, fails the files of the default
    library and the version-pinned files. *)
Definition strict_engine (lintProgram : Program) (fileName source : string)
    (config : IConfigurationFile) : completion (list string) :=
  if JsString.includes fileName "typescript/lib/lib." || JsString.includes fileName "/ts3.8/"
  then Return [fileName +:+ ": not to be linted"]
  else Fixture.applyAllRules lintProgram fileName source config.
End Blanket.

(** ** Release lists of other shapes

    [TypeScriptVersion.shipped] and [TypeScriptVersion.latest] come from a
    package, whose releases differ in what they list: here the latest version
    is itself the last of the shipped releases. [repeating] lists a release
    twice, and in [with_next] a release follows the latest version. *)

Module Releases.
Definition shipped : list TsVersion := ["5.6"; "5.7"; "5.8"; "5.9"; "6.0"].
Definition latest : TsVersion := "6.0".
End Releases.

(** ** Predicates of the further properties *)

(** The conditions under which [range] returns. *)
Definition range_accepts (shipped : list TsVersion) (latest : TsVersion)
    (minVersion maxVersion : TsVersion) : Prop :=
  (minVersion = "local" ∧ maxVersion = "local")
  ∨ (minVersion ≠ "local" ∧ minVersion = latest ∧ maxVersion = latest)
  ∨ (minVersion ≠ "local" ∧ minVersion ≠ latest ∧ maxVersion ≠ "local"
     ∧ minVersion ∈ shipped
     ∧ (maxVersion = latest ∨ JsArray.indexOf shipped minVersion ≤ JsArray.indexOf shipped maxVersion)).

(** What [/^\/ts\d+\.\d/] describes: [/ts], one or more decimal digits, a
    dot and one more digit, followed by anything. *)
Fixpoint all_digits (s : string) : bool :=
  match s with
  | EmptyString => true
  | String c s' => JsString.is_digit c && all_digits s'
  end.

Definition ts_version_dir (s : string) : Prop :=
  ∃ major minor rest,
    major ≠ EmptyString ∧ all_digits major = true ∧ JsString.is_digit minor = true
    ∧ s = "/ts" +:+ major +:+ "." +:+ String minor rest.

(** [structurally_linted] as a test: whether the loop hands [file] to the
    rule engine. *)
Definition handed_to_engine (normalize : string → string) (lintProgram : Program)
    (dirPath : string) (isLatest : bool) (file : SourceFile) : bool :=
  negb (isSourceFileDefaultLibrary lintProgram file)
  && (negb isLatest || negb (truthy (isTypesVersionPath normalize (fileName file) dirPath))).

(** * Properties

    ** Arrays: [indexOf] and [slice] *)

Section ArrayFacts.
Implicit Types (l : list string) (v : string).

Lemma indexOf_found l v (i : nat) :
  JsArray.indexOf l v = Z.of_nat i →
  l !! i = Some v ∧ ∀ (j : nat) w, l !! j = Some w → (j < i)%nat → w ≠ v.
Proof.
  unfold JsArray.indexOf. destruct (list_find _ l) as [[k w]|] eqn:Hfind; [|lia].
  intros Hk. assert (k = i) as -> by lia.
  apply list_find_Some in Hfind as (Hlook & -> & Hbefore). eauto.
Qed.

Lemma indexOf_absent l v : JsArray.indexOf l v = -1 ↔ v ∉ l.
Proof.
  unfold JsArray.indexOf. destruct (list_find _ l) as [[k w]|] eqn:Hfind.
  - apply list_find_Some in Hfind as (Hlook & -> & _).
    split; [lia|]. intros []. by eapply list_elem_of_lookup_2.
  - split; [|done]. intros _ Hin.
    destruct (list_find_elem_of (λ x, x = v) l v Hin eq_refl) as [? Hsome].
    congruence.
Qed.

Lemma indexOf_range l v : -1 ≤ JsArray.indexOf l v < Z.of_nat (length l).
Proof.
  unfold JsArray.indexOf. destruct (list_find _ l) as [[k w]|] eqn:Hfind; [|lia].
  apply list_find_Some in Hfind as (Hlook%lookup_lt_Some & _). lia.
Qed.

Lemma indexOf_elem l v : v ∈ l → 0 ≤ JsArray.indexOf l v < Z.of_nat (length l).
Proof.
  intros Hin. pose proof (indexOf_range l v).
  destruct (decide (JsArray.indexOf l v = -1)) as [Hno%indexOf_absent|]; [done|lia].
Qed.

Lemma indexOf_lookup l v : v ∈ l → l !! Z.to_nat (JsArray.indexOf l v) = Some v.
Proof.
  intros Hin%indexOf_elem.
  apply (indexOf_found l v (Z.to_nat (JsArray.indexOf l v))). lia.
Qed.

(** In a duplicate-free array [indexOf] inverts the lookup. *)
Lemma indexOf_NoDup l v (i : nat) :
  NoDup l → l !! i = Some v → JsArray.indexOf l v = Z.of_nat i.
Proof.
  intros Hnd Hi.
  pose proof (list_elem_of_lookup_2 _ _ _ Hi) as Hin.
  pose proof (indexOf_lookup l v Hin) as Hk.
  pose proof (indexOf_elem l v Hin).
  rewrite <- (NoDup_lookup l _ _ v Hnd Hk Hi). lia.
Qed.

Lemma slice_bounded {A} (l : list A) (i j : nat) :
  (i ≤ j ≤ length l)%nat →
  JsArray.slice l (Z.of_nat i) (Some (Z.of_nat j)) = take (j - i) (drop i l).
Proof.
  intros Hij. unfold JsArray.slice, JsArray.relative_index.
  destruct (Z.ltb_spec (Z.of_nat i) 0), (Z.ltb_spec (Z.of_nat j) 0); try lia.
  rewrite !Z.min_l by lia. f_equal; [lia|]. f_equal; lia.
Qed.

Lemma slice_to_end {A} (l : list A) (i : nat) :
  (i ≤ length l)%nat → JsArray.slice l (Z.of_nat i) None = drop i l.
Proof.
  intros Hi. unfold JsArray.slice, JsArray.relative_index.
  destruct (Z.ltb_spec (Z.of_nat i) 0); try lia.
  rewrite Z.min_l by lia. rewrite Nat2Z.id.
  apply take_ge. rewrite length_drop. lia.
Qed.

Lemma StronglySorted_by_lookup {A} (R : A → A → Prop) (l : list A) :
  (∀ (i j : nat) x y, l !! i = Some x → l !! j = Some y → (i < j)%nat → R x y) →
  StronglySorted R l.
Proof.
  induction l as [|a l IH]; intros Hlt; constructor.
  - apply IH. intros i j x y Hi Hj Hij. apply (Hlt (S i) (S j)); [done..|lia].
  - apply Forall_forall. intros y [j Hj]%list_elem_of_lookup_1.
    apply (Hlt 0%nat (S j)); [done..|lia].
Qed.
End ArrayFacts.

(** ** VersionRangeResolver *)

Section VersionRangeFacts.
Variable shipped : list TsVersion.
Variable latest : TsVersion.

Local Abbreviation range := (range shipped latest).
Local Abbreviation position := (JsArray.indexOf shipped).

Lemma range_unfold_shipped minVersion maxVersion :
  minVersion ≠ "local" → minVersion ≠ latest →
  maxVersion ≠ "local" → maxVersion ≠ latest →
  range minVersion maxVersion =
    (assert assert_min_shipped (0 <=? position minVersion);;
     assert assert_max_after_min (position minVersion <=? position maxVersion);;
     Return (JsArray.slice shipped (position minVersion) (Some (position maxVersion + 1)))).
Proof.
  intros Hmin1 Hmin2 Hmax1 Hmax2. unfold range.
  rewrite !bool_decide_eq_false_2 by done. simpl.
  by destruct (assert assert_min_shipped _).
Qed.

(** C7: [range] on ([latest], [latest]) returns exactly the list holding
    the latest version, and on (["local"], ["local"]) exactly the list
    holding ["local"]. *)
Theorem range_latest_and_local :
  range latest latest = Return [latest] ∧ range "local" "local" = Return ["local"].
Proof.
  split; unfold range.
  - destruct (decide (latest = "local")) as [->|Hne]; [done|].
    rewrite bool_decide_eq_false_2 by done.
    by rewrite bool_decide_eq_true_2.
  - done.
Qed.

Lemma range_local_min maxVersion :
  maxVersion ≠ "local" →
  range "local" maxVersion = Throw (AssertionError assert_max_is_local).
Proof. intros Hmax. unfold range. simpl. by rewrite bool_decide_eq_false_2. Qed.

Lemma range_local_max minVersion :
  minVersion ≠ "local" →
  range minVersion "local" =
    Throw (AssertionError (if bool_decide (minVersion = latest)
                           then assert_max_is_latest else assert_max_not_local)).
Proof.
  intros Hmin. unfold range. rewrite (bool_decide_eq_false_2 _ Hmin).
  case_bool_decide as Hlatest; [|done].
  subst minVersion. by rewrite bool_decide_eq_false_2.
Qed.

Lemma range_latest_mismatch maxVersion :
  latest ≠ "local" → maxVersion ≠ latest →
  range latest maxVersion = Throw (AssertionError assert_max_is_latest).
Proof.
  intros Hlatest Hmax. unfold range.
  rewrite (bool_decide_eq_false_2 _ Hlatest), bool_decide_eq_true_2 by done.
  by rewrite bool_decide_eq_false_2.
Qed.

Lemma range_unknown_min minVersion maxVersion :
  minVersion ≠ "local" → minVersion ≠ latest → maxVersion ≠ "local" →
  minVersion ∉ shipped →
  range minVersion maxVersion = Throw (AssertionError assert_min_shipped).
Proof.
  intros Hmin1 Hmin2 Hmax Hnot%indexOf_absent. unfold range.
  rewrite (bool_decide_eq_false_2 _ Hmin1), (bool_decide_eq_false_2 _ Hmin2),
    (bool_decide_eq_false_2 _ Hmax). by rewrite Hnot.
Qed.

Lemma range_max_before_min minVersion maxVersion :
  minVersion ≠ "local" → minVersion ≠ latest →
  maxVersion ≠ "local" → maxVersion ≠ latest →
  minVersion ∈ shipped → position maxVersion < position minVersion →
  range minVersion maxVersion = Throw (AssertionError assert_max_after_min).
Proof.
  intros Hmin1 Hmin2 Hmax1 Hmax2 Hmin%indexOf_elem Hlt.
  rewrite range_unfold_shipped by done. unfold assert.
  rewrite (Zle_imp_le_bool 0 _) by lia. simpl.
  destruct (Z.leb_spec (position minVersion) (position maxVersion)); [lia|done].
Qed.

(** The data model of the version tags: a tag is a shipped release, the
    latest version or ["local"]; the shipped sequence is duplicate-free, its
    order being total, and holds neither ["local"] nor the latest version,
    which [range] appends to it. *)
Hypothesis shipped_NoDup : NoDup shipped.
Hypothesis local_not_shipped : "local" ∉ shipped.
Hypothesis latest_not_shipped : latest ∉ shipped.

Lemma shipped_not_special v : v ∈ shipped → v ≠ "local" ∧ v ≠ latest.
Proof. intros Hin. split; by intros ->. Qed.

Lemma shipped_sorted : StronglySorted (released_before shipped) shipped.
Proof.
  apply StronglySorted_by_lookup. intros i j x y Hi Hj Hij. unfold released_before.
  rewrite (indexOf_NoDup shipped x i), (indexOf_NoDup shipped y j) by done. lia.
Qed.

(** Up to the latest version: the shipped releases from [minVersion] on,
    then the latest version. *)
Lemma range_to_latest minVersion :
  latest ≠ "local" → minVersion ∈ shipped →
  range minVersion latest
  = Return (drop (Z.to_nat (position minVersion)) shipped ++ [latest]).
Proof.
  intros Hlatest Hmin. destruct (shipped_not_special _ Hmin) as [Hmin1 Hmin2].
  pose proof (indexOf_elem _ _ Hmin) as Hi. unfold range.
  rewrite (bool_decide_eq_false_2 _ Hmin1), (bool_decide_eq_false_2 _ Hmin2),
    (bool_decide_eq_false_2 _ Hlatest).
  simpl. unfold assert. rewrite (Zle_imp_le_bool 0 _) by lia. simpl.
  rewrite bool_decide_eq_true_2 by done.
  rewrite <- (Z2Nat.id (position minVersion)) at 1 by lia.
  rewrite slice_to_end by lia. done.
Qed.

(** C4, as the code has it: [range] throws, and returns no list, whenever
    exactly one endpoint is ["local"], whenever [minVersion] is the latest
    version and [maxVersion] is not, whenever [minVersion] is neither
    ["local"] nor the latest version and is absent from the shipped
    sequence, whenever [minVersion] is shipped and [maxVersion] is neither
    shipped nor the latest version, and whenever both are shipped with the
    position of [minVersion] greater than that of [maxVersion]. Every
    failure is an assertion failure; an unknown [maxVersion] and an inverted
    range fail the same assertion. *)
Theorem range_failures minVersion maxVersion :
  (minVersion = "local" → maxVersion ≠ "local" →
     range minVersion maxVersion = Throw (AssertionError assert_max_is_local))
  ∧ (minVersion ≠ "local" → maxVersion = "local" →
     ∃ a, range minVersion maxVersion = Throw (AssertionError a))
  ∧ (minVersion = latest → maxVersion ≠ latest →
     ∃ a, range minVersion maxVersion = Throw (AssertionError a))
  ∧ (minVersion ≠ "local" → minVersion ≠ latest → minVersion ∉ shipped →
     ∃ a, range minVersion maxVersion = Throw (AssertionError a))
  ∧ (minVersion ∈ shipped →
     maxVersion ≠ "local" → maxVersion ≠ latest → maxVersion ∉ shipped →
     range minVersion maxVersion = Throw (AssertionError assert_max_after_min))
  ∧ (minVersion ∈ shipped → maxVersion ∈ shipped →
     position maxVersion < position minVersion →
     range minVersion maxVersion = Throw (AssertionError assert_max_after_min)).
Proof.
  split_and!.
  - intros ->. apply range_local_min.
  - intros Hmin ->. eexists. by apply range_local_max.
  - intros -> Hmax. destruct (decide (latest = "local")) as [Hl|Hl].
    + eexists. rewrite Hl in Hmax |- *. by apply range_local_min.
    + eexists. by apply range_latest_mismatch.
  - intros Hmin1 Hmin2 Hnot. destruct (decide (maxVersion = "local")) as [->|Hmax].
    + eexists. by apply range_local_max.
    + eexists. by apply range_unknown_min.
  - intros Hmin Hmax1 Hmax2 Hnot. destruct (shipped_not_special _ Hmin).
    apply range_max_before_min; try done.
    apply indexOf_absent in Hnot. apply indexOf_elem in Hmin. lia.
  - intros Hmin Hmax Hlt.
    destruct (shipped_not_special _ Hmin), (shipped_not_special _ Hmax).
    by apply range_max_before_min.
Qed.
End VersionRangeFacts.

(** *** [range] on the stand-in release list *)

Section RangeRuns.
Local Abbreviation range := (range Fixture.shipped Fixture.latest).
Local Abbreviation position := (JsArray.indexOf Fixture.shipped).

Lemma fixture_shipped_NoDup : NoDup Fixture.shipped.
Proof. compute_done. Qed.

Lemma fixture_local_not_shipped : "local" ∉ Fixture.shipped.
Proof. compute_done. Qed.

Lemma fixture_latest_not_shipped : Fixture.latest ∉ Fixture.shipped.
Proof. compute_done. Qed.

Lemma range_failures_witness :
  range "local" "4.0" = Throw (AssertionError assert_max_is_local)
  ∧ (∃ a, range "4.0" "local" = Throw (AssertionError a))
  ∧ (∃ a, range Fixture.latest "4.0" = Throw (AssertionError a))
  ∧ (∃ a, range "9.9" "4.0" = Throw (AssertionError a))
  ∧ range "4.0" "9.9" = Throw (AssertionError assert_max_after_min)
  ∧ range "4.1" "3.9" = Throw (AssertionError assert_max_after_min).
Proof.
  pose proof (range_failures Fixture.shipped Fixture.latest
                fixture_local_not_shipped fixture_latest_not_shipped) as fails.
  split_and!.
  - apply (fails "local" "4.0"); compute_done.
  - destruct (fails "4.0" "local") as (_ & H & _). apply H; compute_done.
  - destruct (fails Fixture.latest "4.0") as (_ & _ & H & _). apply H; compute_done.
  - destruct (fails "9.9" "4.0") as (_ & _ & _ & H & _). apply H; compute_done.
  - destruct (fails "4.0" "9.9") as (_ & _ & _ & _ & H & _). apply H; compute_done.
  - destruct (fails "4.1" "3.9") as (_ & _ & _ & _ & _ & H). apply H; compute_done.
Defined.

(** C4 as stated does not hold: an unknown tag and an inverted range raise
    one and the same error, and the tags ["local"] and [latest], which are
    absent from the shipped sequence, are accepted. *)
Lemma range_errors_not_distinct :
  (position "3.9" < position "4.1"
   ∧ range "4.1" "3.9" = Throw (AssertionError assert_max_after_min))
  ∧ (("9.9" ∉ Fixture.shipped)
     ∧ range "4.1" "9.9" = Throw (AssertionError assert_max_after_min))
  ∧ (("local" ∉ Fixture.shipped) ∧ range "local" "local" = Return ["local"])
  ∧ ((Fixture.latest ∉ Fixture.shipped)
     ∧ range Fixture.latest Fixture.latest = Return [Fixture.latest]
     ∧ range "4.0" Fixture.latest = Return ["4.0"; "4.1"; Fixture.latest]).
Proof. split_and!; compute_done. Qed.
End RangeRuns.

(** ** Strings: [indexOf] and occurrences *)

Section StringFacts.
Implicit Types (s t pat text : string) (p q n : nat).
Local Open Scope nat_scope.

Lemma substring_length s p n :
  String.length (String.substring p n s) = n `min` (String.length s - p).
Proof.
  revert p n. induction s as [|c s IH]; intros [|p] [|n]; simpl; try done.
  all: rewrite IH; simpl; lia.
Qed.

Lemma occurs_at_bound pat text p :
  occurs_at pat text p → pat ≠ EmptyString ∨ p ≤ String.length text →
  p + String.length pat ≤ String.length text.
Proof.
  unfold occurs_at. intros Hocc Hne.
  pose proof (substring_length text p (String.length pat)) as Hlen.
  rewrite Hocc in Hlen.
  assert (pat = EmptyString ∨ 0 < String.length pat) as [->|Hpos].
  { destruct pat; simpl; [by left|right; lia]. }
  - simpl. destruct Hne; [done|lia].
  - lia.
Qed.

Lemma occurs_at_get pat text p i :
  occurs_at pat text p → i < String.length pat →
  String.get (p + i) text = String.get i pat.
Proof.
  unfold occurs_at. intros Hocc Hi.
  transitivity (String.get i (String.substring p (String.length pat) text));
    [|by rewrite Hocc].
  rewrite String.substring_correct1 by done. f_equal. lia.
Qed.

Lemma substring_substring s p n a m :
  a + m ≤ n →
  String.substring a m (String.substring p n s) = String.substring (p + a) m s.
Proof.
  intros Hle. apply String.get_correct. intros k.
  destruct (decide (k < m)) as [Hk|Hk].
  - rewrite !String.substring_correct1 by lia. f_equal. lia.
  - by rewrite !String.substring_correct2 by lia.
Qed.

(** An occurrence of a pattern holds an occurrence of each part of it. *)
Lemma occurs_at_part pat part text p a :
  occurs_at pat text p →
  String.substring a (String.length part) pat = part →
  a + String.length part ≤ String.length pat →
  occurs_at part text (p + a).
Proof.
  unfold occurs_at. intros Hocc Hpart Hle.
  by rewrite <- (substring_substring text p (String.length pat)), Hocc.
Qed.

Lemma index_ge n pat text m : String.index n pat text = Some m → n ≤ m.
Proof.
  revert n m. induction text as [|c text IH]; intros [|n] m; simpl; try lia.
  - done.
  - destruct (String.index n pat text) as [k|] eqn:Hk; [|done].
    intros [= <-]. apply IH in Hk. lia.
Qed.

(** What [indexOf] finds: the first occurrence at or after [from]. *)
Lemma indexOf_Some text pat from m :
  JsString.indexOf text pat from = Some m →
  from ≤ m ∧ occurs_at pat text m ∧ ∀ q, from ≤ q < m → ¬ occurs_at pat text q.
Proof.
  unfold JsString.indexOf, occurs_at. intros Hidx. split_and!.
  - by eapply index_ge.
  - by eapply String.index_correct1.
  - intros q [Hq1 Hq2]. by eapply String.index_correct2.
Qed.

Lemma indexOf_None text pat from :
  pat ≠ EmptyString → JsString.indexOf text pat from = None →
  ∀ q, from ≤ q → ¬ occurs_at pat text q.
Proof.
  unfold JsString.indexOf, occurs_at. intros Hne Hidx q Hq.
  by eapply String.index_correct3.
Qed.

(** Conversely, an occurrence at or after [from] makes the search
    succeed. *)
Lemma indexOf_is_Some text pat from q :
  pat ≠ EmptyString → from ≤ q → occurs_at pat text q →
  ∃ m, JsString.indexOf text pat from = Some m ∧ m ≤ q.
Proof.
  intros Hne Hq Hocc.
  destruct (JsString.indexOf text pat from) as [m|] eqn:Hidx.
  - exists m. split; [done|].
    apply indexOf_Some in Hidx as (_ & _ & Hfirst).
    destruct (decide (m ≤ q)); [done|]. destruct (Hfirst q); [lia|done].
  - by destruct (indexOf_None _ _ _ Hne Hidx q Hq).
Qed.

Lemma indexOf_first text pat m :
  pat ≠ EmptyString →
  JsString.indexOf text pat 0 = Some m ↔ first_at (occurs_at pat text) m.
Proof.
  intros Hne. split.
  - intros (_ & Hocc & Hfirst)%indexOf_Some. split; [done|].
    intros q Hq. apply Hfirst. lia.
  - intros [Hocc Hfirst].
    destruct (indexOf_is_Some text pat 0 m Hne ltac:(lia) Hocc) as (k & Hk & Hle).
    rewrite Hk. f_equal.
    apply indexOf_Some in Hk as (_ & Hocck & _).
    destruct (decide (k = m)); [done|]. destruct (Hfirst k); [lia|done].
Qed.
End StringFacts.

(** ** ContentPolicyScanner *)

Section ScannerFacts.
Implicit Types (text : string) (p q lastIndex : nat) (r : option Err).
Local Open Scope nat_scope.

Lemma tslintDisable_length : String.length tslintDisable = 14.
Proof. reflexivity. Qed.

Lemma tslintDisable_nonempty : tslintDisable ≠ EmptyString.
Proof. done. Qed.

(** No proper suffix of [tslint:disable] is a prefix of it, so two
    occurrences never overlap. *)
Lemma tslintDisable_no_overlap text p q :
  occurs_at tslintDisable text p → occurs_at tslintDisable text q →
  p < q → p + 14 ≤ q.
Proof.
  intros Hp Hq Hlt. destruct (decide (p + 14 ≤ q)) as [|Hnear]; [done|exfalso].
  assert (∃ d, q = p + d ∧ 0 < d < 14) as (d & -> & Hd) by (exists (q - p); lia).
  pose proof (occurs_at_get _ _ p d Hp ltac:(rewrite tslintDisable_length; lia)) as Hunit.
  pose proof (occurs_at_get _ _ (p + d) 0 Hq ltac:(rewrite tslintDisable_length; lia))
    as Hhead.
  rewrite Nat.add_0_r in Hhead. rewrite Hhead in Hunit.
  destruct (decide (d = 5)) as [->|Hd5].
  - pose proof (occurs_at_get _ _ p 6 Hp ltac:(rewrite tslintDisable_length; lia))
      as Hcolon.
    pose proof (occurs_at_get _ _ (p + 5) 1 Hq ltac:(rewrite tslintDisable_length; lia))
      as Hs.
    replace (p + 5 + 1) with (p + 6) in Hs by lia. rewrite Hs in Hcolon.
    vm_compute in Hcolon. discriminate.
  - do 14 (destruct d as [|d]; [first [lia | vm_compute in Hunit; discriminate]|]).
    lia.
Qed.

Lemma body_Returns_None text lastIndex :
  testNoTslintDisables_body text lastIndex = Returns None →
  ∀ q, lastIndex ≤ q → ¬ occurs_at tslintDisable text q.
Proof.
  unfold testNoTslintDisables_body.
  destruct (JsString.indexOf text tslintDisable lastIndex) as [m|] eqn:Hidx.
  - by destruct (_ && _).
  - intros _. by apply indexOf_None.
Qed.

Lemma body_Returns_Some text lastIndex err :
  testNoTslintDisables_body text lastIndex = Returns (Some err) →
  message err = tslintDisable_message ∧ lastIndex ≤ pos err
  ∧ bare_disable_at text (pos err)
  ∧ ∀ q, lastIndex ≤ q < pos err → ¬ occurs_at tslintDisable text q.
Proof.
  unfold testNoTslintDisables_body.
  destruct (JsString.indexOf text tslintDisable lastIndex) as [m|] eqn:Hidx; [|done].
  apply indexOf_Some in Hidx as (Hge & Hocc & Hfirst).
  destruct (bool_decide _ && bool_decide _) eqn:Hnext; [|done].
  intros [= <-]. simpl.
  apply andb_true_iff in Hnext as [Hh%bool_decide_eq_true Hc%bool_decide_eq_true].
  by split_and!.
Qed.

Lemma body_Continues text lastIndex lastIndex' :
  testNoTslintDisables_body text lastIndex = Continues lastIndex' →
  ∃ p, JsString.indexOf text tslintDisable lastIndex = Some p
       ∧ lastIndex ≤ p
       ∧ lastIndex' = p + String.length tslintDisable
       ∧ qualified_disable_at text p
       ∧ (∀ q, lastIndex ≤ q < p → ¬ occurs_at tslintDisable text q)
       ∧ lastIndex' ≤ String.length text.
Proof.
  unfold testNoTslintDisables_body.
  destruct (JsString.indexOf text tslintDisable lastIndex) as [m|] eqn:Hidx; [|done].
  apply indexOf_Some in Hidx as (Hge & Hocc & Hfirst).
  destruct (bool_decide _ && bool_decide _) eqn:Hnext; [done|].
  intros [= <-]. exists m. split_and!; try done.
  - split; [done|]. apply andb_false_iff in Hnext as [Hn|Hn];
      apply bool_decide_eq_false in Hn; [left|right]; by apply dec_stable.
  - pose proof (occurs_at_bound tslintDisable text m Hocc
                  (or_introl tslintDisable_nonempty)) as Hbound.
    by rewrite tslintDisable_length in Hbound.
Qed.

(** The loop entered with [lastIndex] returns the first bare occurrence at
    or after [lastIndex], or nothing when there is none. *)
Lemma loop_returns_sound text lastIndex r :
  loop_returns text lastIndex r →
  match r with
  | None => ∀ q, lastIndex ≤ q → ¬ bare_disable_at text q
  | Some err =>
      message err = tslintDisable_message ∧ lastIndex ≤ pos err
      ∧ bare_disable_at text (pos err)
      ∧ ∀ q, lastIndex ≤ q < pos err → ¬ bare_disable_at text q
  end.
Proof.
  induction 1 as [lastIndex [err|] Hbody | lastIndex lastIndex' r Hbody Hrun IH].
  - apply body_Returns_Some in Hbody as (Hmsg & Hge & Hbare & Hfirst).
    split_and!; try done. intros q Hq [Hocc _]. by apply (Hfirst q).
  - intros q Hq [Hocc _]. by apply (body_Returns_None _ _ Hbody q).
  - apply body_Continues in Hbody as (p & _ & Hge & -> & Hqual & Hfirst & _).
    rewrite tslintDisable_length in *.
    assert (∀ q, lastIndex ≤ q < p + 14 → ¬ bare_disable_at text q) as Hskip.
    { intros q Hq Hbare. destruct (decide (q < p)) as [Hlt|Hnlt].
      - destruct Hbare as [Hocc _]. apply (Hfirst q); [lia|done].
      - destruct (decide (q = p)) as [->|Hne].
        + destruct Hqual as [_ Hnext], Hbare as (_ & Hh & Hc).
          rewrite tslintDisable_length in *. by destruct Hnext.
        + destruct Hqual as [Hoccp _], Hbare as [Hoccq _].
          pose proof (tslintDisable_no_overlap text p q Hoccp Hoccq). lia. }
    destruct r as [err|].
    + destruct IH as (Hmsg & Hge' & Hbare & Hfirst'). split_and!; try done; [lia|].
      intros q Hq. destruct (decide (q < p + 14)); [apply Hskip|apply Hfirst']; lia.
    + intros q Hq. destruct (decide (q < p + 14)); [apply Hskip|apply IH]; lia.
Qed.

Lemma loop_returns_deterministic text lastIndex r r' :
  loop_returns text lastIndex r → loop_returns text lastIndex r' → r = r'.
Proof.
  intros Hrun. revert r'.
  induction Hrun as [lastIndex r Hbody | lastIndex lastIndex' r Hbody Hrun IH];
    intros r' Hrun'; destruct Hrun' as [? ? Hbody' | ? ? ? Hbody' Hrun'];
    rewrite Hbody in Hbody'; try done.
  - by injection Hbody'.
  - injection Hbody' as <-. by apply IH.
Qed.

Lemma loop_fuel_returns fuel text lastIndex r :
  testNoTslintDisables_loop fuel text lastIndex = Some r → loop_returns text lastIndex r.
Proof.
  revert lastIndex. induction fuel as [|fuel IH]; intros lastIndex; simpl; [done|].
  destruct (testNoTslintDisables_body text lastIndex) as [r'|lastIndex'] eqn:Hbody.
  - intros [= <-]. by apply loop_return.
  - intros Hrun. eapply loop_continue; eauto.
Qed.

(** The variant of the loop: the code units left after [lastIndex]. *)
Lemma loop_fuel_enough fuel text lastIndex :
  String.length text - lastIndex < fuel →
  is_Some (testNoTslintDisables_loop fuel text lastIndex).
Proof.
  revert lastIndex. induction fuel as [|fuel IH]; intros lastIndex Hfuel; [lia|].
  simpl. destruct (testNoTslintDisables_body text lastIndex) as [r'|lastIndex'] eqn:Hbody.
  - done.
  - apply body_Continues in Hbody as (p & _ & Hge & -> & _ & _ & Hbound).
    rewrite tslintDisable_length in *. apply IH. lia.
Qed.

Lemma testNoTslintDisables_loop_total text :
  testNoTslintDisables_loop (S (String.length text)) text 0
  = Some (testNoTslintDisables text).
Proof.
  unfold testNoTslintDisables.
  destruct (loop_fuel_enough (S (String.length text)) text 0) as [r ->]; [lia|done].
Qed.

Lemma testNoTslintDisables_returns text :
  loop_returns text 0 (testNoTslintDisables text).
Proof. eapply loop_fuel_returns, testNoTslintDisables_loop_total. Qed.

Lemma testNoTslintDisables_sound text :
  match testNoTslintDisables text with
  | None => ∀ q, ¬ bare_disable_at text q
  | Some err =>
      message err = tslintDisable_message ∧ first_at (bare_disable_at text) (pos err)
  end.
Proof.
  pose proof (loop_returns_sound _ _ _ (testNoTslintDisables_returns text)) as Hsound.
  destruct (testNoTslintDisables text) as [err|].
  - destruct Hsound as (Hmsg & _ & Hbare & Hfirst).
    split; [done|]. split; [done|]. intros q Hq. apply Hfirst. lia.
  - intros q. apply Hsound. lia.
Qed.

Lemma testNoTslintDisables_None text :
  testNoTslintDisables text = None ↔ ∀ p, ¬ bare_disable_at text p.
Proof.
  pose proof (testNoTslintDisables_sound text) as Hsound.
  destruct (testNoTslintDisables text) as [err|]; [|done].
  destruct Hsound as (_ & Hbare & _). split; [done|]. intros Hno.
  by destruct (Hno (pos err)).
Qed.

Lemma testNoTsIgnore_None text :
  testNoTsIgnore text = None ↔ ∀ p, ¬ occurs_at tsIgnore text p.
Proof.
  unfold testNoTsIgnore.
  destruct (JsString.indexOf text tsIgnore 0) as [m|] eqn:Hidx.
  - apply indexOf_Some in Hidx as (_ & Hocc & _). split; [done|].
    intros Hno. by destruct (Hno m).
  - split; [|done]. intros _ p. apply (indexOf_None text tsIgnore 0); [done..|lia].
Qed.

Lemma first_at_unique (P : nat → Prop) p q : first_at P p → first_at P q → p = q.
Proof.
  intros [Hp Hfp] [Hq Hfq]. destruct (lt_eq_lt_dec p q) as [[Hlt| ->]|Hlt]; [|done|].
  - by destruct (Hfq p).
  - by destruct (Hfp q).
Qed.

Lemma qualified_not_bare text p : qualified_disable_at text p → ¬ bare_disable_at text p.
Proof. intros [_ [Hnext|Hnext]] (_ & Hh & Hc); done. Qed.

(** C3: the scan for [tslint:disable] returns no violation when every
    occurrence is qualified by a colon or a hyphen, as in
    [tslint:disable-next-line] and [tslint:disable:ruleName]; when there is
    a bare occurrence it returns the violation at the first bare
    occurrence, however many qualified occurrences come before it, ten for
    instance. *)
Theorem testNoTslintDisables_first_bare :
  (∀ text,
     (testNoTslintDisables text = None ↔ ∀ p, ¬ bare_disable_at text p)
     ∧ ((∀ p, occurs_at tslintDisable text p → qualified_disable_at text p) →
        testNoTslintDisables text = None)
     ∧ (∀ p, first_at (bare_disable_at text) p ↔
             testNoTslintDisables text
             = Some {| pos := p; message := tslintDisable_message |})
     ∧ (∀ err, testNoTslintDisables text = Some err →
               message err = tslintDisable_message))
  ∧ testNoTslintDisables "// tslint:disable-next-line" = None
  ∧ testNoTslintDisables "/* tslint:disable:ruleName */" = None
  ∧ testNoTslintDisables Fixture.ten_qualified_then_bare
    = Some {| pos := 268; message := tslintDisable_message |}
  ∧ Forall (λ p, occurs_at tslintDisable Fixture.ten_qualified_then_bare p →
                 qualified_disable_at Fixture.ten_qualified_then_bare p) (seq 0 268)
  ∧ length (filter (occurs_at tslintDisable Fixture.ten_qualified_then_bare) (seq 0 268))
    = 10.
Proof.
  split_and!; [|compute_done..].
  intros text. pose proof (testNoTslintDisables_sound text) as Hsound.
  pose proof (testNoTslintDisables_None text) as Hnone.
  split; [done|]. split; [|split].
  - intros Hall. apply Hnone. intros p Hbare.
    apply (qualified_not_bare text p); [|done]. apply Hall, Hbare.
  - intros p. destruct (testNoTslintDisables text) as [[m msg]|]; simpl in *.
    + destruct Hsound as [-> Hfirst]. split.
      * intros Hp. by rewrite (first_at_unique _ _ _ Hp Hfirst).
      * by intros [= ->].
    + split; [|done]. intros [Hbare _]. by destruct (Hsound p).
  - intros err Herr. rewrite Herr in Hsound. apply Hsound.
Qed.

(** C9: the scan for [tslint:disable] terminates on every text. An
    iteration that does not return has found an occurrence and moves
    [lastIndex] to the end of it, strictly forward and not beyond the end of
    the text; the loop entered with any [lastIndex] returns, within one
    iteration more than the code units left; and what it returns from
    [lastIndex = 0] is the one value [testNoTslintDisables text]. *)
Theorem testNoTslintDisables_terminates text :
  (∀ lastIndex lastIndex',
     testNoTslintDisables_body text lastIndex = Continues lastIndex' →
     ∃ pos, JsString.indexOf text tslintDisable lastIndex = Some pos
            ∧ lastIndex' = pos + String.length tslintDisable
            ∧ lastIndex < lastIndex' ≤ String.length text)
  ∧ (∀ lastIndex, ∃ r,
       loop_returns text lastIndex r
       ∧ ∀ fuel, String.length text - lastIndex < fuel →
                 testNoTslintDisables_loop fuel text lastIndex = Some r)
  ∧ loop_returns text 0 (testNoTslintDisables text)
  ∧ (∀ r, loop_returns text 0 r → r = testNoTslintDisables text).
Proof.
  split_and!.
  - intros lastIndex lastIndex' (p & Hidx & Hge & -> & _ & _ & Hbound)%body_Continues.
    exists p. rewrite tslintDisable_length in *. split_and!; try done; lia.
  - intros lastIndex.
    destruct (loop_fuel_enough (S (String.length text - lastIndex)) text lastIndex)
      as [r Hr]; [lia|].
    exists r. pose proof (loop_fuel_returns _ _ _ _ Hr) as Hrun. split; [done|].
    intros fuel Hfuel. destruct (loop_fuel_enough fuel text lastIndex Hfuel) as [r' Hr'].
    rewrite Hr'. f_equal.
    eapply loop_returns_deterministic; [by eapply loop_fuel_returns|done].
  - apply testNoTslintDisables_returns.
  - intros r Hrun. eapply loop_returns_deterministic; [done|].
    apply testNoTslintDisables_returns.
Qed.

Lemma testNoTsIgnore_first text m :
  testNoTsIgnore text = Some {| pos := m; message := tsIgnore_message |}
  ↔ first_at (occurs_at tsIgnore text) m.
Proof.
  unfold testNoTsIgnore. rewrite <- indexOf_first by done.
  destruct (JsString.indexOf text tsIgnore 0) as [k|]; [|done].
  split; intros [= ->]; done.
Qed.

Lemma testNoTsIgnore_occurrence text p :
  occurs_at tsIgnore text p →
  ∃ m, first_at (occurs_at tsIgnore text) m
       ∧ testNoTsIgnore text = Some {| pos := m; message := tsIgnore_message |}.
Proof.
  intros Hocc.
  destruct (indexOf_is_Some text tsIgnore 0 p) as (m & Hm & _); [done|lia|done|].
  exists m. split.
  - by apply indexOf_first.
  - unfold testNoTsIgnore. by rewrite Hm.
Qed.

(** C10: when a text holds both [ts-ignore] and a bare [tslint:disable],
    the violation reported for it is the [ts-ignore] one, at the first
    offset of [ts-ignore], wherever the two occurrences lie; whenever
    [testNoTsIgnore] finds something, the result of [testNoTslintDisables]
    is not consulted. *)
Theorem contentPolicyError_prefers_ts_ignore text p q :
  occurs_at tsIgnore text p → bare_disable_at text q →
  (∃ m, first_at (occurs_at tsIgnore text) m
        ∧ contentPolicyError text = Some {| pos := m; message := tsIgnore_message |})
  ∧ contentPolicyError text = testNoTsIgnore text
  ∧ contentPolicyError text ≠ testNoTslintDisables text.
Proof.
  intros Hignore Hbare.
  destruct (testNoTsIgnore_occurrence text p Hignore) as (m & Hfirst & Hm).
  unfold contentPolicyError. rewrite Hm. split_and!.
  - by exists m.
  - done.
  - intros Heq. pose proof (testNoTslintDisables_sound text) as Hsound.
    rewrite <- Heq in Hsound. by destruct Hsound as [Hmsg _].
Qed.
End ScannerFacts.

Section ScannerRuns.
Local Open Scope nat_scope.

Lemma contentPolicyError_prefers_ts_ignore_witness :
  (occurs_at tsIgnore "// tslint:disable // @ts-ignore" 22
   ∧ bare_disable_at "// tslint:disable // @ts-ignore" 3
   ∧ contentPolicyError "// tslint:disable // @ts-ignore"
     = testNoTsIgnore "// tslint:disable // @ts-ignore")
  ∧ (occurs_at tsIgnore "// @ts-ignore // tslint:disable" 4
     ∧ bare_disable_at "// @ts-ignore // tslint:disable" 17
     ∧ contentPolicyError "// @ts-ignore // tslint:disable"
       = testNoTsIgnore "// @ts-ignore // tslint:disable").
Proof.
  split; (split; [compute_done|split; [compute_done|]]).
  - apply (contentPolicyError_prefers_ts_ignore _ 22 3); compute_done.
  - apply (contentPolicyError_prefers_ts_ignore _ 4 17); compute_done.
Defined.

Example contentPolicyError_either_order :
  contentPolicyError "// tslint:disable // @ts-ignore"
  = Some {| pos := 22; message := tsIgnore_message |}
  ∧ contentPolicyError "// @ts-ignore // tslint:disable"
    = Some {| pos := 4; message := tsIgnore_message |}
  ∧ testNoTslintDisables "// tslint:disable // @ts-ignore"
    = Some {| pos := 3; message := tslintDisable_message |}.
Proof. split_and!; compute_done. Qed.
End ScannerRuns.

(** ** PathPolicy *)

Section AsciiFacts.
Lemma lower_units c :
  JsString.is_lower c = true →
  c ≠ "\"%char ∧ c ≠ "/"%char ∧ c ≠ "."%char
  ∧ JsString.is_lower (JsString.toUpperCase c) = false
  ∧ JsString.toUpperCase c ≠ "\"%char ∧ JsString.toUpperCase c ≠ "/"%char
  ∧ JsString.toUpperCase c ≠ "."%char.
Proof.
  destruct c as [[] [] [] [] [] [] [] []]; intros Hlower;
    try discriminate Hlower; vm_compute; by split_and!.
Qed.
End AsciiFacts.

Section PathPolicyFacts.
Variable normalize : string → string.

Lemma replace_backslashes_get s i :
  String.get i (replace_backslashes s) ≠ Some "\"%char.
Proof.
  revert i. induction s as [|c s IH]; intros [|i]; simpl; try done.
  case_bool_decide; congruence.
Qed.

Lemma uppercase_drive_letter_get s i :
  String.get i s ≠ Some "\"%char →
  String.get i (uppercase_drive_letter s) ≠ Some "\"%char.
Proof.
  unfold uppercase_drive_letter.
  destruct s as [|c [|c' s]]; try done.
  destruct (decide (c' = ":"%char)) as [->|Hne].
  - destruct (JsString.is_lower c) eqn:Hlower; [|done].
    destruct i as [|i]; [|done]. simpl. intros _ [= Hup].
    by destruct (lower_units c Hlower) as (_ & _ & _ & _ & Hback & _).
  - destruct c' as [[] [] [] [] [] [] [] []]; done.
Qed.

(** [normalizePath] leaves no backslash. *)
Lemma normalizePath_forward_slashes file i :
  String.get i (normalizePath normalize file) ≠ Some "\"%char.
Proof. apply uppercase_drive_letter_get, replace_backslashes_get. Qed.

(** [normalizePath] leaves no lower-case drive letter. *)
Lemma normalizePath_drive_letter file c rest :
  normalizePath normalize file = String c (String ":" rest) → JsString.is_lower c = false.
Proof.
  unfold normalizePath, uppercase_drive_letter.
  destruct (replace_backslashes (normalize file)) as [|d [|d' s]]; try done.
  destruct (decide (d' = ":"%char)) as [->|Hne].
  - destruct (JsString.is_lower d) eqn:Hlower.
    + intros [= <- <-]. by destruct (lower_units d Hlower) as (_ & _ & _ & Hup & _).
    + by intros [= <- <-].
  - destruct d' as [[] [] [] [] [] [] [] []]; try done; by intros [= <- <-].
Qed.

Lemma normalizePath_same_up_to_drive_case a b :
  same_up_to_drive_case a b →
  uppercase_drive_letter (replace_backslashes a)
  = uppercase_drive_letter (replace_backslashes b).
Proof.
  intros [->|(c & rest & Hlower & -> & ->)]; [done|].
  destruct (lower_units c Hlower) as (Hback & _ & _ & Hup & Hupback & _).
  simpl. rewrite !bool_decide_eq_false_2 by done. simpl.
  rewrite Hlower, Hup. unfold replace_backslashes. simpl.
  by rewrite !bool_decide_eq_false_2 by done.
Qed.

(** The paths of the specification's example are in normal form already;
    the platform's [normalize] may only change their separators. *)
Hypothesis normalize_project_file :
  replace_backslashes (normalize "/project/ts3.8/index.d.ts") = "/project/ts3.8/index.d.ts".
Hypothesis normalize_project_index :
  replace_backslashes (normalize "/project/index.d.ts") = "/project/index.d.ts".
Hypothesis normalize_project_root :
  replace_backslashes (normalize "/project") = "/project".
Hypothesis normalize_respects_drive_case : respects_drive_case normalize.

(** C6: [isTypesVersionPath] is [true] for [/project/ts3.8/index.d.ts]
    under the root [/project] and [false] for [/project/index.d.ts]; both
    paths are compared after [normalizePath], whose result has no backslash
    and no lower-case drive letter, so that two file names, or two roots,
    that differ only in the case of the drive letter are treated alike. *)
Theorem isTypesVersionPath_policy :
  isTypesVersionPath normalize "/project/ts3.8/index.d.ts" "/project" = js_boolean true
  ∧ isTypesVersionPath normalize "/project/index.d.ts" "/project" = js_boolean false
  ∧ (∀ file i, String.get i (normalizePath normalize file) ≠ Some "\"%char)
  ∧ (∀ file c rest,
       normalizePath normalize file = String c (String ":" rest) →
       JsString.is_lower c = false)
  ∧ (∀ c rest other,
       JsString.is_lower c = true →
       let lower := String c (String ":" rest) in
       let upper := String (JsString.toUpperCase c) (String ":" rest) in
       normalizePath normalize lower = normalizePath normalize upper
       ∧ isTypesVersionPath normalize lower other
         = isTypesVersionPath normalize upper other
       ∧ isTypesVersionPath normalize other lower
         = isTypesVersionPath normalize other upper).
Proof.
  split_and!.
  - unfold isTypesVersionPath, normalizePath.
    by rewrite normalize_project_file, normalize_project_root.
  - unfold isTypesVersionPath, normalizePath.
    by rewrite normalize_project_index, normalize_project_root.
  - apply normalizePath_forward_slashes.
  - apply normalizePath_drive_letter.
  - intros c rest other Hlower lower upper.
    assert (normalizePath normalize lower = normalizePath normalize upper) as Heq.
    { apply normalizePath_same_up_to_drive_case.
      by apply normalize_respects_drive_case. }
    unfold isTypesVersionPath. by rewrite Heq.
Qed.
End PathPolicyFacts.

(** *** The POSIX [normalize] respects the case of a drive letter *)

Section NodePathFacts.
Implicit Types (c : ascii) (s seg : string) (segs res : list string).

Lemma append_String c s t : String c s +:+ t = String c (s +:+ t).
Proof. reflexivity. Qed.

Lemma split_cons_other sep c s :
  c ≠ sep →
  ∃ seg segs, JsString.split sep s = seg :: segs
              ∧ JsString.split sep (String c s) = String c seg :: segs.
Proof.
  intros Hne. simpl. rewrite (bool_decide_eq_false_2 _ Hne).
  destruct (JsString.split sep s) as [|seg segs] eqn:Hsplit; [|by eauto].
  destruct s as [|d s]; simpl in Hsplit; [done|].
  case_bool_decide; [done|]. by destruct (JsString.split sep s).
Qed.

Lemma startsWith_slash c s : c ≠ "/"%char → JsString.startsWith (String c s) "/" = false.
Proof.
  intros Hc. unfold JsString.startsWith.
  change (String.prefix "/" (String c s))
    with (if ascii_dec "/" c then String.prefix EmptyString s else false).
  by destruct (ascii_dec "/" c) as [<-|_].
Qed.

Lemma normalize_segment_related allowAboveRoot x y seg res1 res2 :
  x ≠ ".." → y ≠ ".." →
  stacks_related x y res1 res2 →
  stacks_related x y (NodePath.normalize_segment allowAboveRoot res1 seg)
                     (NodePath.normalize_segment allowAboveRoot res2 seg).
Proof.
  intros Hx Hy [->|(kept & -> & ->)]; [by left|].
  unfold NodePath.normalize_segment.
  destruct (bool_decide (seg = EmptyString) || bool_decide (seg = ".")).
  { right. by exists kept. }
  destruct (bool_decide (seg = "..")).
  - destruct kept as [|top kept]; simpl.
    + rewrite !bool_decide_eq_false_2 by done. by left.
    + destruct (bool_decide (top = "..")).
      * destruct allowAboveRoot; right.
        -- by exists (".." :: top :: kept).
        -- by exists (top :: kept).
      * right. by exists kept.
  - right. by exists (seg :: kept).
Qed.

Lemma foldl_normalize_segment_related allowAboveRoot x y segs res1 res2 :
  x ≠ ".." → y ≠ ".." →
  stacks_related x y res1 res2 →
  stacks_related x y (foldl (NodePath.normalize_segment allowAboveRoot) res1 segs)
                     (foldl (NodePath.normalize_segment allowAboveRoot) res2 segs).
Proof.
  intros Hx Hy. revert res1 res2.
  induction segs as [|seg segs IH]; intros res1 res2 Hrel; simpl; [done|].
  by apply IH, normalize_segment_related.
Qed.

Lemma join_drive_segment c seg kept :
  ∃ rest, JsString.join "/" (rev (kept ++ [String c (String ":" seg)]))
          = String c (String ":" rest)
          ∧ ∀ d, JsString.join "/" (rev (kept ++ [String d (String ":" seg)]))
                 = String d (String ":" rest).
Proof.
  rewrite rev_app_distr. simpl. destruct (rev kept) as [|seg' segs'] eqn:Hrev.
  - exists seg. split; [done|]. intros d. by rewrite rev_app_distr, Hrev.
  - exists (seg +:+ "/" +:+ JsString.join "/" (seg' :: segs')). split; [done|].
    intros d. by rewrite rev_app_distr, Hrev.
Qed.

Lemma normalizeString_drive_case c d rest allowAboveRoot :
  c ≠ "/"%char → d ≠ "/"%char →
  NodePath.normalizeString (String c (String ":" rest)) allowAboveRoot
  = NodePath.normalizeString (String d (String ":" rest)) allowAboveRoot
  ∨ ∃ tail,
      NodePath.normalizeString (String c (String ":" rest)) allowAboveRoot
      = String c (String ":" tail)
      ∧ NodePath.normalizeString (String d (String ":" rest)) allowAboveRoot
        = String d (String ":" tail).
Proof.
  intros Hc Hd. unfold NodePath.normalizeString.
  destruct (split_cons_other "/" ":" rest ltac:(done)) as (seg & segs & Hrest & Hcolon).
  destruct (split_cons_other "/" c (String ":" rest) Hc) as (seg1 & segs1 & H1 & ->).
  destruct (split_cons_other "/" d (String ":" rest) Hd) as (seg2 & segs2 & H2 & ->).
  rewrite Hcolon in H1, H2. injection H1 as <- <-. injection H2 as <- <-.
  set (x := String c (String ":" seg)). set (y := String d (String ":" seg)).
  assert (stacks_related x y
            (foldl (NodePath.normalize_segment allowAboveRoot) [] (x :: segs))
            (foldl (NodePath.normalize_segment allowAboveRoot) [] (y :: segs)))
    as [->|(kept & -> & ->)].
  { simpl. apply foldl_normalize_segment_related; [done..|].
    right. exists []. unfold NodePath.normalize_segment. simpl.
    by rewrite !bool_decide_eq_false_2 by done. }
  - by left.
  - right. destruct (join_drive_segment c seg kept) as (tail & Hc' & Hany).
    exists tail. split; [done|]. apply Hany.
Qed.

Lemma posix_normalize_respects_drive_case :
  respects_drive_case NodePath.posix_normalize.
Proof.
  intros c rest Hlower.
  destruct (lower_units c Hlower) as (_ & Hslash & _ & _ & _ & Hupslash & _).
  set (C := JsString.toUpperCase c) in *.
  assert (∀ d, d ≠ "/"%char →
            NodePath.posix_normalize (String d (String ":" rest))
            = let path := NodePath.normalizeString (String d (String ":" rest)) true in
              if bool_decide (path = EmptyString) then
                (if bool_decide (JsString.last (String ":" rest) = Some "/"%char)
                 then "./" else ".")
              else if bool_decide (JsString.last (String ":" rest) = Some "/"%char)
                   then path +:+ "/" else path) as Hunfold.
  { intros d Hd. unfold NodePath.posix_normalize.
    rewrite bool_decide_eq_false_2 by done.
    rewrite startsWith_slash by done. simpl negb.
    by destruct (NodePath.normalizeString _ _). }
  rewrite !Hunfold by done.
  destruct (normalizeString_drive_case c C rest true Hslash Hupslash)
    as [->|(tail & -> & ->)]; [by left|].
  right. cbv zeta. rewrite !(bool_decide_eq_false_2 (String _ _ = EmptyString)) by done.
  destruct (bool_decide (JsString.last (String ":" rest) = Some "/"%char)).
  - exists c, (tail +:+ "/"). by rewrite !append_String.
  - by exists c, tail.
Qed.
End NodePathFacts.

(** *** The path policy on a POSIX platform *)

Section PathPolicyRuns.
Local Abbreviation isTypesVersionPath := (isTypesVersionPath NodePath.posix_normalize).

Lemma isTypesVersionPath_policy_witness :
  isTypesVersionPath "/project/ts3.8/index.d.ts" "/project" = js_boolean true
  ∧ isTypesVersionPath "/project/index.d.ts" "/project" = js_boolean false
  ∧ isTypesVersionPath "c:/project/ts3.8/index.d.ts" "C:/project"
    = isTypesVersionPath "C:/project/ts3.8/index.d.ts" "C:/project"
  ∧ isTypesVersionPath "C:/project/ts3.8/index.d.ts" "c:/project"
    = isTypesVersionPath "C:/project/ts3.8/index.d.ts" "C:/project".
Proof.
  destruct (isTypesVersionPath_policy NodePath.posix_normalize
              ltac:(compute_done) ltac:(compute_done) ltac:(compute_done)
              posix_normalize_respects_drive_case)
    as (Hpinned & Hplain & _ & _ & Hdrive).
  split_and!; [done|done|..].
  - apply (Hdrive "c"%char "/project/ts3.8/index.d.ts" "C:/project"). compute_done.
  - apply (Hdrive "c"%char "/project" "C:/project/ts3.8/index.d.ts"). compute_done.
Defined.

Example posix_normalize_demo :
  NodePath.posix_normalize "/project//ts3.8/./x/../index.d.ts" = "/project/ts3.8/index.d.ts"
  ∧ NodePath.posix_normalize "a/../../b/" = "../b/"
  ∧ NodePath.posix_normalize "/.." = "/"
  ∧ normalizePath NodePath.posix_normalize "c:\project/./ts3.8" = "C:/project/ts3.8"
  ∧ isTypesVersionPath "/project/ts12.3/a" "/project"
    = js_boolean true
  ∧ isTypesVersionPath "/project/ts3./a" "/project"
    = js_boolean false
  ∧ isTypesVersionPath "/project" "/project" = js_empty_string
  ∧ isTypesVersionPath "/other/ts3.8" "/project" = js_undefined.
Proof. split_and!; compute_done. Qed.

Example isTypesVersionPath_drive_letters :
  isTypesVersionPath "c:\project\ts3.8\index.d.ts" "C:/project" = js_boolean true
  ∧ isTypesVersionPath "C:/project/ts3.8/index.d.ts" "c:\project" = js_boolean true
  ∧ isTypesVersionPath "c:/project/index.d.ts" "C:/project" = js_boolean false
  ∧ isTypesVersionPath "/project/ts3.8x/index.d.ts" "/project" = js_boolean true
  ∧ isTypesVersionPath "/project/tsx/index.d.ts" "/project" = js_boolean false.
Proof. split_and!; compute_done. Qed.
End PathPolicyRuns.

(** ** ConfigResolver *)

Section ConfigResolverFacts.
Variable shipped : list TsVersion.
Variable latest : TsVersion.
Variable typeScriptPath : TsVersion → option string → string.
Variable pathExists : string → bool.
Variable joinPaths : list string → string.
Variable __dirname : string.
Variable findConfiguration : string → completion (option IConfigurationFile).

Local Abbreviation getLintConfig :=
  (getLintConfig shipped latest typeScriptPath pathExists joinPaths __dirname
     findConfiguration).

Local Abbreviation effective_config_path :=
  (effective_config_path pathExists joinPaths __dirname).

Lemma getLintConfig_misconfigured expectedConfigPath tsconfigPath minVersion maxVersion
    tsLocal config :
  findConfiguration (effective_config_path expectedConfigPath) = Return (Some config) →
  rules config !! "expect" ≫= ruleSeverity ≠ Some error →
  getLintConfig expectedConfigPath tsconfigPath minVersion maxVersion tsLocal
  = Throw (Error expect_rule_message).
Proof.
  unfold effective_config_path, getLintConfig. intros -> Hrule. simpl.
  destruct (rules config !! "expect") as [rule|]; [|done]. simpl in *.
  by rewrite bool_decide_eq_true_2.
Qed.

Lemma getLintConfig_Return expectedConfigPath tsconfigPath minVersion maxVersion
    tsLocal config' :
  getLintConfig expectedConfigPath tsconfigPath minVersion maxVersion tsLocal
  = Return config' →
  ∃ config rule versions,
    findConfiguration (effective_config_path expectedConfigPath) = Return (Some config)
    ∧ rules config !! "expect" = Some rule
    ∧ ruleSeverity rule = Some error
    ∧ range shipped latest minVersion maxVersion = Return versions
    ∧ rules config' !! "expect"
      = Some {| ruleArguments :=
                  Some [expect_argument
                          {| tsconfigPath := tsconfigPath;
                             versionsToTest :=
                               (λ versionName,
                                  {| versionName := versionName;
                                     path := typeScriptPath versionName tsLocal |})
                               <$> versions |}];
                ruleSeverity := Some error |}.
Proof.
  unfold effective_config_path, getLintConfig.
  destruct (findConfiguration _) as [[config|]|] eqn:Hfind; simpl; try done.
  destruct (rules config !! "expect") as [rule|] eqn:Hrule; simpl; [|done].
  case_bool_decide as Hseverity; [done|].
  destruct (range shipped latest minVersion maxVersion) as [versions|] eqn:Hrange;
    simpl; [|done].
  intros [= <-]. exists config, rule, versions.
  split_and!; try done. simpl. by rewrite lookup_insert_eq, Hseverity.
Qed.

(** C5: loading the configuration fails with the error of the [expect]
    rule whenever the loaded rule set has no [expect] entry, or has one
    whose severity is not ["error"], ["warning"] in particular; and a
    configuration that [getLintConfig] returns has the rule at severity
    ["error"], in the file it was loaded from as well. *)
Theorem getLintConfig_expect_rule expectedConfigPath tsconfigPath minVersion maxVersion
    tsLocal :
  (∀ config,
     findConfiguration (effective_config_path expectedConfigPath) = Return (Some config) →
     rules config !! "expect" = None
     ∨ (∃ rule, rules config !! "expect" = Some rule ∧ ruleSeverity rule ≠ Some error) →
     getLintConfig expectedConfigPath tsconfigPath minVersion maxVersion tsLocal
     = Throw (Error expect_rule_message))
  ∧ (∀ config rule,
       findConfiguration (effective_config_path expectedConfigPath)
       = Return (Some config) →
       rules config !! "expect" = Some rule → ruleSeverity rule = Some warning →
       getLintConfig expectedConfigPath tsconfigPath minVersion maxVersion tsLocal
       = Throw (Error expect_rule_message))
  ∧ (∀ config',
       getLintConfig expectedConfigPath tsconfigPath minVersion maxVersion tsLocal
       = Return config' →
       (∃ rule', rules config' !! "expect" = Some rule'
                 ∧ ruleSeverity rule' = Some error)
       ∧ ∃ config rule,
           findConfiguration (effective_config_path expectedConfigPath)
           = Return (Some config)
           ∧ rules config !! "expect" = Some rule
           ∧ ruleSeverity rule = Some error).
Proof.
  split_and!.
  - intros config Hfind Hrule. eapply getLintConfig_misconfigured; [done|].
    destruct Hrule as [->|(rule & -> & Hseverity)]; done.
  - intros config rule Hfind Hrule Hseverity.
    eapply getLintConfig_misconfigured; [done|]. rewrite Hrule. simpl.
    by rewrite Hseverity.
  - intros config' (config & rule & versions & Hfind & Hrule & Hseverity & _ & Hrule')
      %getLintConfig_Return.
    split; eauto 10.
Qed.
End ConfigResolverFacts.

(** ** LintOrchestrator *)

Section LintOrchestratorFacts.
Variable shipped : list TsVersion.
Variable latest : TsVersion.
Variable typeScriptPath : TsVersion → option string → string.
Variable pathExists : string → bool.
Variable joinPaths : list string → string.
Variable __dirname : string.
Variable findConfiguration : string → completion (option IConfigurationFile).
Variable normalize : string → string.
Variable createProgram : string → completion Program.
Variable RuleFailure : Type.
Variable applyAllRules :
  Program → string → string → IConfigurationFile → completion (list RuleFailure).
Variable format : string → list RuleFailure → string.

Local Abbreviation Linter := (Linter RuleFailure).
Local Abbreviation lint_files := (lint_files normalize RuleFailure applyAllRules).
Local Abbreviation lint :=
  (lint shipped latest typeScriptPath pathExists joinPaths __dirname findConfiguration
     normalize createProgram RuleFailure applyAllRules format).
Local Abbreviation getLintConfig :=
  (getLintConfig shipped latest typeScriptPath pathExists joinPaths __dirname
     findConfiguration).
Local Abbreviation structurally_linted := (structurally_linted normalize).

Implicit Types (lintProgram : Program) (config : IConfigurationFile)
  (file : SourceFile) (files before after : list SourceFile) (linter : Linter).

(** The loop over [before ++ after] runs over [before] and, unless that
    ended the run, goes on with [after]. *)
Lemma lint_files_app lintProgram dirPath isLatest config before after linter :
  lint_files lintProgram dirPath isLatest config (before ++ after) linter
  = outcome ← lint_files lintProgram dirPath isLatest config before linter;
    match outcome with
    | inl report => Return (inl report)
    | inr linter => lint_files lintProgram dirPath isLatest config after linter
    end.
Proof.
  revert linter. induction before as [|file before IH]; intros linter; simpl; [done|].
  destruct (isSourceFileDefaultLibrary lintProgram file); [done|].
  destruct (if negb _ then contentPolicyError _ else None); [done|].
  destruct (if negb isLatest || _ then _ else _) as [linter'|]; simpl; [|done].
  apply IH.
Qed.

(** A file that is scanned and holds a directive ends the run. *)
Lemma lint_files_report lintProgram dirPath isLatest config file after linter err :
  isSourceFileDefaultLibrary lintProgram file = false →
  JsString.includes (fileName file) "node_modules" = false →
  contentPolicyError (text file) = Some err →
  lint_files lintProgram dirPath isLatest config (file :: after) linter
  = Return (inl (content_report file err)).
Proof. intros Hlib Hdep Herr. simpl. by rewrite Hlib, Hdep, Herr. Qed.

Lemma lint_files_clean lintProgram dirPath isLatest config files linter :
  (∀ file, file ∈ files → content_scanned lintProgram file →
           (∀ p, ¬ occurs_at tsIgnore (text file) p)
           ∧ (∀ p, ¬ bare_disable_at (text file) p)) →
  (∀ file, file ∈ files → structurally_linted lintProgram dirPath isLatest file →
           applyAllRules (program linter) (fileName file) (text file) config
           = Return []) →
  ∃ linter', lint_files lintProgram dirPath isLatest config files linter
             = Return (inr linter')
             ∧ failures linter' = failures linter.
Proof.
  revert linter. induction files as [|file files IH]; intros linter Hclean Hrules; simpl.
  { by exists linter. }
  destruct (isSourceFileDefaultLibrary lintProgram file) eqn:Hlib.
  { apply IH; intros f Hf; [apply Hclean|apply Hrules]; by apply list_elem_of_further. }
  assert ((if negb (JsString.includes (fileName file) "node_modules")
           then contentPolicyError (text file) else None) = None) as ->.
  { destruct (JsString.includes (fileName file) "node_modules") eqn:Hdep; [done|].
    destruct (Hclean file) as [Hignore Hdisable]; [apply list_elem_of_here|done|]. simpl.
    unfold contentPolicyError.
    by rewrite (proj2 (testNoTsIgnore_None _) Hignore),
               (proj2 (testNoTslintDisables_None _) Hdisable). }
  destruct (negb isLatest || _) eqn:Hlinted; simpl.
  - unfold Linter_lint.
    rewrite (Hrules file (list_elem_of_here _ _) (conj Hlib Hlinted)). simpl.
    rewrite app_nil_r.
    destruct (IH {| options := options linter; program := program linter;
                    failures := failures linter |}) as (linter' & -> & Hsame).
    + intros f Hf. apply Hclean. by apply list_elem_of_further.
    + intros f Hf. apply Hrules. by apply list_elem_of_further.
    + by exists linter'.
  - apply IH; intros f Hf; [apply Hclean|apply Hrules]; by apply list_elem_of_further.
Qed.

(** C8: when the program is built and the configuration loads, no file
    that is scanned holds [ts-ignore] or a bare [tslint:disable], and the
    rule engine finds no failure in the files handed to it, the run returns
    [undefined] and no text. *)
Theorem lint_no_violations (dirPath : string) (minVersion maxVersion : TsVersion)
    (isLatest expectOnly : bool) (tsLocal : option string) lintProgram config :
  let tsconfigPath := joinPaths [dirPath; "tsconfig.json"] in
  let configPath :=
    if expectOnly then joinPaths [__dirname; ".."; "dtslint-expect-only.json"]
    else getConfigPath joinPaths dirPath in
  createProgram tsconfigPath = Return lintProgram →
  getLintConfig configPath tsconfigPath minVersion maxVersion tsLocal = Return config →
  (∀ file, file ∈ getSourceFiles lintProgram → content_scanned lintProgram file →
           (∀ p, ¬ occurs_at tsIgnore (text file) p)
           ∧ (∀ p, ¬ bare_disable_at (text file) p)) →
  (∀ file, file ∈ getSourceFiles lintProgram →
           structurally_linted lintProgram dirPath isLatest file →
           applyAllRules lintProgram (fileName file) (text file) config = Return []) →
  lint dirPath minVersion maxVersion isLatest expectOnly tsLocal = Return None.
Proof.
  intros tsconfigPath configPath Hprogram Hconfig Hclean Hrules.
  unfold lint. fold tsconfigPath. rewrite Hprogram. simpl.
  fold tsconfigPath configPath. rewrite Hconfig. simpl.
  destruct (lint_files_clean lintProgram dirPath isLatest config
              (getSourceFiles lintProgram)
              (new_Linter RuleFailure {| fix_ := false; formatter := "stylish" |}
                 lintProgram) Hclean Hrules)
    as (linter' & -> & Hfailures).
  simpl. by rewrite Hfailures.
Qed.

(** C2, as the code has it: when the program is built and the
    configuration loads, the loop reaches a file that is scanned, and the
    text of that file has [// @ts-ignore] at offset 40 and no [ts-ignore]
    before it, the run returns the report of that file whose location is
    that of offset 44, where [ts-ignore] itself begins, and whose message is
    the fixed [ts-ignore] message, whatever the rule engine finds in any
    file. *)
Theorem lint_reports_ts_ignore (dirPath : string) (minVersion maxVersion : TsVersion)
    (isLatest expectOnly : bool) (tsLocal : option string)
    lintProgram config before file after linter :
  let tsconfigPath := joinPaths [dirPath; "tsconfig.json"] in
  let configPath :=
    if expectOnly then joinPaths [__dirname; ".."; "dtslint-expect-only.json"]
    else getConfigPath joinPaths dirPath in
  createProgram tsconfigPath = Return lintProgram →
  getLintConfig configPath tsconfigPath minVersion maxVersion tsLocal = Return config →
  getSourceFiles lintProgram = before ++ file :: after →
  lint_files lintProgram dirPath isLatest config before
    (new_Linter RuleFailure {| fix_ := false; formatter := "stylish" |} lintProgram)
  = Return (inr linter) →
  content_scanned lintProgram file →
  occurs_at "// @ts-ignore" (text file) 40 →
  (∀ q, (q < 44)%nat → ¬ occurs_at tsIgnore (text file) q) →
  lint dirPath minVersion maxVersion isLatest expectOnly tsLocal
  = Return (Some ("At " +:+ fileName file +:+ ":"
                  +:+ JSON_stringify (getLineAndCharacterOfPosition file 44)
                  +:+ ": " +:+ tsIgnore_message)).
Proof.
  intros tsconfigPath configPath Hprogram Hconfig Hfiles Hbefore [Hlib Hdep]
    Hcomment Hfirst.
  assert (testNoTsIgnore (text file)
          = Some {| pos := 44; message := tsIgnore_message |}) as Hignore.
  { apply testNoTsIgnore_first. split; [|done].
    by apply (occurs_at_part "// @ts-ignore" tsIgnore (text file) 40 4). }
  unfold lint. fold tsconfigPath. rewrite Hprogram. simpl.
  fold tsconfigPath configPath. rewrite Hconfig. simpl.
  rewrite Hfiles, lint_files_app, Hbefore. simpl.
  rewrite Hlib, Hdep. simpl. unfold contentPolicyError. by rewrite Hignore.
Qed.
End LintOrchestratorFacts.

(** *** Runs on the stand-ins *)

Section LintRuns.
Local Open Scope nat_scope.

Local Abbreviation getLintConfig :=
  (getLintConfig Fixture.shipped Fixture.latest Fixture.typeScriptPath Fixture.pathExists
     Fixture.joinPaths Fixture.__dirname Fixture.findConfiguration).

Lemma getLintConfig_expect_rule_witness :
  getLintConfig "/warned/tslint.json" "/warned/tsconfig.json" "3.9" "4.1" None
  = Throw (Error expect_rule_message)
  ∧ getLintConfig "/bare/tslint.json" "/bare/tsconfig.json" "3.9" "4.1" None
    = Throw (Error expect_rule_message)
  ∧ ∃ rule', (∃ config', getLintConfig "/p/tslint.json" "/p/tsconfig.json" "3.9" "4.1" None
                         = Return config'
                         ∧ rules config' !! "expect" = Some rule')
             ∧ ruleSeverity rule' = Some error.
Proof.
  pose proof (getLintConfig_expect_rule Fixture.shipped Fixture.latest
                Fixture.typeScriptPath Fixture.pathExists Fixture.joinPaths
                Fixture.__dirname Fixture.findConfiguration) as Hrule.
  split_and!.
  - destruct (Hrule "/warned/tslint.json" "/warned/tsconfig.json" "3.9" "4.1" None)
      as (_ & Hwarning & _).
    eapply (Hwarning _ (Fixture.expect_entry warning)); compute_done.
  - destruct (Hrule "/bare/tslint.json" "/bare/tsconfig.json" "3.9" "4.1" None)
      as (Hmissing & _ & _).
    eapply Hmissing; [compute_done|left; compute_done].
  - destruct (Hrule "/p/tslint.json" "/p/tsconfig.json" "3.9" "4.1" None)
      as (_ & _ & Hreturned).
    destruct (getLintConfig "/p/tslint.json" "/p/tsconfig.json" "3.9" "4.1" None)
      as [config'|] eqn:Hconfig; [|by vm_compute in Hconfig].
    destruct (Hreturned config' eq_refl) as [(rule' & Hrule' & Hseverity) _].
    exists rule'. split; [by exists config'|done].
Defined.

Lemma lint_no_violations_witness :
  Fixture.lint "/clean" "3.9" "4.1" true false None = Return None.
Proof.
  eapply (lint_no_violations Fixture.shipped Fixture.latest Fixture.typeScriptPath
            Fixture.pathExists Fixture.joinPaths Fixture.__dirname
            Fixture.findConfiguration NodePath.posix_normalize Fixture.createProgram
            string Fixture.applyAllRules Fixture.format
            "/clean" "3.9" "4.1" true false None).
  - vm_compute. reflexivity.
  - vm_compute. reflexivity.
  - intros file Hin [Hlib Hdep].
    simpl in Hin. rewrite !elem_of_cons, elem_of_nil in Hin.
    destruct Hin as [->|[->|[->|[]]]]; [by vm_compute in Hlib|..];
      (split; [apply testNoTsIgnore_None|apply testNoTslintDisables_None]; compute_done).
  - intros file Hin [Hlib Hlinted].
    simpl in Hin. rewrite !elem_of_cons, elem_of_nil in Hin.
    destruct Hin as [->|[->|[->|[]]]];
      [by vm_compute in Hlib|compute_done|by vm_compute in Hlinted].
Defined.

Lemma lint_reports_ts_ignore_witness :
  let file := Fixture.source_file "/p/index.d.ts" Fixture.ignoring in
  occurs_at "// @ts-ignore" (text file) 40
  ∧ getLineAndCharacterOfPosition file 44 = {| line := 0; character := 44 |}
  ∧ Fixture.lint "/p" "3.9" "4.1" false false None
    = Return (Some ("At " +:+ fileName file +:+ ":"
                    +:+ JSON_stringify (getLineAndCharacterOfPosition file 44)
                    +:+ ": " +:+ tsIgnore_message)).
Proof.
  intros file. split; [compute_done|]. split; [compute_done|].
  eapply (lint_reports_ts_ignore Fixture.shipped Fixture.latest Fixture.typeScriptPath
            Fixture.pathExists Fixture.joinPaths Fixture.__dirname
            Fixture.findConfiguration NodePath.posix_normalize Fixture.createProgram
            string Fixture.applyAllRules Fixture.format
            "/p" "3.9" "4.1" false false None
            (Fixture.program_of [Fixture.source_file "/p/first.d.ts" Fixture.loose; file;
                                 Fixture.source_file "/p/last.d.ts" Fixture.loose])
            _ [Fixture.source_file "/p/first.d.ts" Fixture.loose] file
            [Fixture.source_file "/p/last.d.ts" Fixture.loose]).
  - vm_compute. reflexivity.
  - vm_compute. reflexivity.
  - reflexivity.
  - reflexivity.
  - split; compute_done.
  - compute_done.
  - intros q Hq. do 44 (destruct q as [|q]; [compute_done|]). lia.
Defined.

(** C2 as stated does not hold. The project [/p] has [// @ts-ignore] at
    offset 40 of its file, and the report is located at offset 44, not 40;
    with [ts-ignore] named earlier in the text ([/twice]) the report is
    located there; under [node_modules] ([/dep]) the same text is not
    reported at all; and with the [expect] rule downgraded ([/warned]) the
    run throws before any file is scanned. *)
Lemma lint_report_not_at_offset_40 :
  let file := Fixture.source_file "/p/index.d.ts" Fixture.ignoring in
  let twice :=
    Fixture.source_file "/twice/index.d.ts"
      "/* ts-ignore */ const answer: number=0; // @ts-ignore" in
  let ts_ignore_at p := {| pos := p; message := tsIgnore_message |} in
  (Fixture.createProgram "/p/tsconfig.json"
   = Return (Fixture.program_of [Fixture.source_file "/p/first.d.ts" Fixture.loose; file;
                                 Fixture.source_file "/p/last.d.ts" Fixture.loose])
   ∧ occurs_at "// @ts-ignore" (text file) 40
   ∧ Fixture.lint "/p" "3.9" "4.1" false false None
     = Return (Some (content_report file (ts_ignore_at 44)))
   ∧ getLineAndCharacterOfPosition file 44 ≠ getLineAndCharacterOfPosition file 40
   ∧ content_report file (ts_ignore_at 44) ≠ content_report file (ts_ignore_at 40))
  ∧ (Fixture.createProgram "/twice/tsconfig.json" = Return (Fixture.program_of [twice])
     ∧ occurs_at "// @ts-ignore" (text twice) 40
     ∧ Fixture.lint "/twice" "3.9" "4.1" false false None
       = Return (Some (content_report twice (ts_ignore_at 3))))
  ∧ (Fixture.createProgram "/dep/tsconfig.json"
     = Return (Fixture.program_of
                 [Fixture.source_file "/dep/node_modules/x/index.d.ts" Fixture.ignoring])
     ∧ Fixture.lint "/dep" "3.9" "4.1" false false None = Return None)
  ∧ (Fixture.createProgram "/warned/tsconfig.json"
     = Return (Fixture.program_of
                 [Fixture.source_file "/warned/index.d.ts" Fixture.ignoring])
     ∧ Fixture.lint "/warned" "3.9" "4.1" false false None
       = Throw (Error expect_rule_message)).
Proof.
  intros file twice ts_ignore_at.
  split_and!; try compute_done. vm_compute. discriminate.
Qed.

(** Without a directive the report is the rendering of the structural
    failures, and a directive is reported in spite of them. *)
Example lint_structural_failures :
  Fixture.lint "/loose" "3.9" "4.1" false false None
  = Return (Some "/loose/index.d.ts: no any")
  ∧ Fixture.lint "/p" "3.9" "4.1" false false None
    = Return (Some (content_report (Fixture.source_file "/p/index.d.ts" Fixture.ignoring)
                      {| pos := 44; message := tsIgnore_message |})).
Proof. split; compute_done. Qed.
End LintRuns.

(** * Further properties

    ** VersionRangeResolver: when [range] returns, and what *)

Section VersionRangeOutcomes.
Variable shipped : list TsVersion.
Variable latest : TsVersion.

Local Abbreviation range := (range shipped latest).
Local Abbreviation position := (JsArray.indexOf shipped).
Local Abbreviation range_accepts := (range_accepts shipped latest).

(** The branch that returned, read off a result of [range]. *)
Lemma range_Return_inv minVersion maxVersion versions :
  range minVersion maxVersion = Return versions →
  (minVersion = "local" ∧ maxVersion = "local" ∧ versions = ["local"])
  ∨ (minVersion ≠ "local" ∧ minVersion = latest ∧ maxVersion = latest
     ∧ versions = [latest])
  ∨ (minVersion ≠ "local" ∧ minVersion ≠ latest ∧ maxVersion ≠ "local"
     ∧ 0 ≤ position minVersion ∧ maxVersion = latest
     ∧ versions = drop (Z.to_nat (position minVersion)) shipped ++ [latest])
  ∨ (minVersion ≠ "local" ∧ minVersion ≠ latest ∧ maxVersion ≠ "local"
     ∧ maxVersion ≠ latest
     ∧ 0 ≤ position minVersion ≤ position maxVersion
     ∧ versions = take (S (Z.to_nat (position maxVersion)) - Z.to_nat (position minVersion))
                    (drop (Z.to_nat (position minVersion)) shipped)).
Proof.
  unfold range, assert.
  destruct (bool_decide_reflect (minVersion = "local")) as [Hmin1|Hmin1].
  { destruct (bool_decide_reflect (maxVersion = "local")); simpl; [|done].
    intros [= <-]. by left. }
  destruct (bool_decide_reflect (minVersion = latest)) as [Hmin2|Hmin2].
  { destruct (bool_decide_reflect (maxVersion = latest)); simpl; [|done].
    intros [= <-]. right. by left. }
  destruct (bool_decide_reflect (maxVersion = "local")) as [Hmax1|Hmax1]; simpl; [done|].
  pose proof (indexOf_range shipped minVersion) as Hi.
  pose proof (indexOf_range shipped maxVersion) as Hj.
  destruct (Z.leb_spec 0 (position minVersion)) as [Hfound|]; simpl; [|done].
  destruct (bool_decide_reflect (maxVersion = latest)) as [Hmax2|Hmax2].
  - intros [= <-]. right. right. left. split_and!; try done.
    rewrite <- (Z2Nat.id (position minVersion)) at 1 by lia.
    by rewrite slice_to_end by lia.
  - destruct (Z.leb_spec (position minVersion) (position maxVersion)) as [Hle|];
      simpl; [|done].
    intros [= <-]. right. right. right. split_and!; try done.
    replace (position maxVersion + 1) with (Z.of_nat (S (Z.to_nat (position maxVersion))))
      by lia.
    rewrite <- (Z2Nat.id (position minVersion)) at 1 by lia.
    by rewrite slice_bounded by lia.
Qed.

Lemma position_lookup v :
  0 ≤ position v → shipped !! Z.to_nat (position v) = Some v.
Proof.
  intros Hfound. apply (indexOf_found shipped v (Z.to_nat (position v))). lia.
Qed.

Lemma range_Return_bounds minVersion maxVersion versions :
  range minVersion maxVersion = Return versions →
  versions ≠ [] ∧ head versions = Some minVersion ∧ last versions = Some maxVersion.
Proof.
  intros [(-> & -> & ->)|[(_ & <- & -> & ->)|[Hlatest|Hshipped]]]%range_Return_inv.
  - done.
  - done.
  - destruct Hlatest as (_ & _ & _ & Hfound & -> & ->).
    pose proof (position_lookup _ Hfound) as Hmin.
    rewrite (drop_S _ _ _ Hmin). split_and!; [done|done|].
    apply last_snoc.
  - destruct Hshipped as (_ & _ & _ & _ & [Hfound Hle] & ->).
    pose proof (position_lookup _ Hfound) as Hmin.
    pose proof (position_lookup maxVersion ltac:(lia)) as Hmax.
    pose proof (lookup_lt_Some _ _ _ Hmax) as Hbound.
    set (i := Z.to_nat (position minVersion)) in *.
    set (j := Z.to_nat (position maxVersion)) in *.
    assert (i ≤ j)%nat as Hij by lia.
    assert (head (take (S j - i) (drop i shipped)) = Some minVersion) as Hhead.
    { rewrite head_lookup, lookup_take_lt, lookup_drop by lia. by rewrite Nat.add_0_r. }
    split_and!; [|done|].
    + intros Hnil. by rewrite Hnil in Hhead.
    + rewrite last_lookup, length_take, length_drop.
      rewrite lookup_take_lt, lookup_drop by lia. rewrite <- Hmax. f_equal. lia.
Qed.

(** X1: a list that [range] returns is never empty: it begins with
    [minVersion] and ends with [maxVersion], whatever the shipped sequence
    holds. *)
Theorem range_endpoints minVersion maxVersion versions :
  range minVersion maxVersion = Return versions →
  versions ≠ [] ∧ head versions = Some minVersion ∧ last versions = Some maxVersion.
Proof. apply range_Return_bounds. Qed.

Lemma range_accepted minVersion maxVersion :
  range_accepts minVersion maxVersion → ∃ versions, range minVersion maxVersion = Return versions.
Proof.
  unfold range, assert.
  intros [[-> ->]|[(Hmin1 & <- & ->)|(Hmin1 & Hmin2 & Hmax1 & Hmin & Hmax)]].
  - by eexists.
  - rewrite (bool_decide_eq_false_2 _ Hmin1), !bool_decide_eq_true_2 by done. by eexists.
  - rewrite (bool_decide_eq_false_2 _ Hmin1), (bool_decide_eq_false_2 _ Hmin2),
      (bool_decide_eq_false_2 _ Hmax1).
    apply indexOf_elem in Hmin. rewrite (Zle_imp_le_bool 0 _) by lia. simpl.
    destruct (bool_decide_reflect (maxVersion = latest)) as [_|Hmax2]; [by eexists|].
    destruct Hmax as [?|Hle]; [done|]. rewrite (Zle_imp_le_bool _ _ Hle). by eexists.
Qed.

(** X2: [range] returns a list exactly for the pairs (["local"], ["local"])
    and ([latest], [latest]), and for a shipped [minVersion] that is neither
    of the two with a [maxVersion] that is the latest version or is found in
    the shipped sequence at the position of [minVersion] or after it; for
    every other pair it throws. *)
Theorem range_returns_iff minVersion maxVersion :
  ((∃ versions, range minVersion maxVersion = Return versions)
   ↔ range_accepts minVersion maxVersion)
  ∧ ((∃ e, range minVersion maxVersion = Throw e)
     ↔ ¬ range_accepts minVersion maxVersion).
Proof.
  assert ((∃ versions, range minVersion maxVersion = Return versions)
          → range_accepts minVersion maxVersion) as Honly.
  { intros [versions Hrange]. unfold range_accepts.
    apply range_Return_inv in Hrange
      as [(-> & -> & _)|[(? & <- & -> & _)|[Hlatest|Hshipped]]].
    - by left.
    - right. by left.
    - destruct Hlatest as (? & ? & ? & Hfound & -> & _). right. right.
      split_and!; try done; [|by left].
      apply dec_stable. intros Hnot%indexOf_absent. lia.
    - destruct Hshipped as (? & ? & ? & ? & [Hfound Hle] & _). right. right.
      split_and!; try done; [|by right].
      apply dec_stable. intros Hnot%indexOf_absent. lia. }
  split; split.
  - done.
  - apply range_accepted.
  - intros [e He] [versions Hrange]%range_accepted. congruence.
  - intros Hnot. destruct (range minVersion maxVersion) as [versions|e] eqn:Hrange.
    + destruct Hnot. apply Honly. by exists versions.
    + by exists e.
Qed.

(** X3: a range from a tag to itself is that one tag, for ["local"], for
    the latest version and for every shipped release, and for no other
    tag. *)
Theorem range_single_version version :
  range version version = Return [version]
  ↔ version = "local" ∨ version = latest ∨ version ∈ shipped.
Proof.
  split.
  - intros [(-> & _)|[(_ & <- & _)|[Hlatest|Hshipped]]]%range_Return_inv.
    + by left.
    + right. by left.
    + destruct Hlatest as (_ & _ & _ & _ & <- & _). right. by left.
    + destruct Hshipped as (_ & _ & _ & _ & [Hfound _] & _). right. right.
      apply dec_stable. intros Hnot%indexOf_absent. lia.
  - intros Hversion.
    destruct (decide (version = "local")) as [->|Hlocal]; [done|].
    destruct (decide (version = latest)) as [->|Hlatest].
    { unfold range, assert.
      by rewrite (bool_decide_eq_false_2 _ Hlocal), !bool_decide_eq_true_2. }
    destruct Hversion as [?|[?|Hin]]; [done..|].
    rewrite range_unfold_shipped by done.
    pose proof (indexOf_elem _ _ Hin) as Hfound.
    pose proof (position_lookup version ltac:(lia)) as Hlook.
    pose proof (lookup_lt_Some _ _ _ Hlook) as Hbound.
    unfold assert. rewrite (Zle_imp_le_bool 0 _), Z.leb_refl by lia. simpl.
    replace (position version + 1) with (Z.of_nat (S (Z.to_nat (position version))))
      by lia.
    rewrite <- (Z2Nat.id (position version)) at 1 by lia.
    rewrite slice_bounded by lia.
    replace (S (Z.to_nat (position version)) - Z.to_nat (position version))%nat
      with 1%nat by lia.
    by rewrite (drop_S _ _ _ Hlook).
Qed.
End VersionRangeOutcomes.

(** ** VersionRangeResolver: ranges over the shipped releases *)

Section VersionRangeSegments.
Variable shipped : list TsVersion.
Variable latest : TsVersion.

Local Abbreviation range := (range shipped latest).
Local Abbreviation position := (JsArray.indexOf shipped).

Lemma take_drop_segments {A} (l : list A) (i j k : nat) :
  (i ≤ j ≤ k)%nat → (k ≤ length l)%nat →
  take (k - i) (drop i l) = take (j - i) (drop i l) ++ take (k - j) (drop j l).
Proof.
  intros Hijk Hk. rewrite <- (take_drop (j - i) (drop i l)) at 1.
  rewrite take_app, take_take, length_take, length_drop, drop_drop.
  f_equal; [f_equal; lia|]. f_equal; [lia|f_equal; lia].
Qed.

(** The data model of the version tags, as for C4. *)
Hypothesis shipped_NoDup : NoDup shipped.
Hypothesis local_not_shipped : "local" ∉ shipped.
Hypothesis latest_not_shipped : latest ∉ shipped.

Lemma elem_of_drop_shipped v (i : nat) :
  v ∈ drop i shipped ↔ v ∈ shipped ∧ Z.of_nat i ≤ position v.
Proof.
  rewrite list_elem_of_lookup. setoid_rewrite lookup_drop. split.
  - intros [k Hk]. split; [by eapply list_elem_of_lookup_2|].
    rewrite (indexOf_NoDup shipped v (i + k)) by done. lia.
  - intros [Hin Hle]. pose proof (indexOf_elem _ _ Hin).
    exists (Z.to_nat (position v) - i)%nat.
    rewrite <- (indexOf_lookup shipped v Hin). f_equal. lia.
Qed.

(** X4: from a shipped [minVersion] up to the latest version, [range]
    returns the shipped releases from [minVersion] on, each of them once and
    in release order, followed by the latest version, which comes last and
    only there. *)
Theorem range_up_to_latest minVersion :
  latest ≠ "local" → minVersion ∈ shipped →
  ∃ versions,
    range minVersion latest = Return (versions ++ [latest])
    ∧ (∀ v, v ∈ versions ↔ v ∈ shipped ∧ position minVersion ≤ position v)
    ∧ NoDup (versions ++ [latest])
    ∧ StronglySorted (released_before shipped) versions.
Proof.
  intros Hlatest Hmin. pose proof (indexOf_elem _ _ Hmin) as Hfound.
  set (i := Z.to_nat (position minVersion)).
  exists (drop i shipped). split_and!.
  - by apply range_to_latest.
  - intros v. rewrite elem_of_drop_shipped. unfold i. by rewrite Z2Nat.id by lia.
  - apply NoDup_app. split_and!.
    + pose proof shipped_NoDup as Hnd. rewrite <- (take_drop i shipped) in Hnd.
      by apply NoDup_app in Hnd as (_ & _ & Hnd).
    + intros v [Hin _]%elem_of_drop_shipped ->%list_elem_of_singleton. done.
    + apply NoDup_singleton.
  - pose proof (shipped_sorted shipped shipped_NoDup) as Hsorted.
    assert (StronglySorted (released_before shipped) (take i shipped ++ drop i shipped))
      as Hparts by (by rewrite take_drop).
    by apply StronglySorted_app_1_r in Hparts.
Qed.

End VersionRangeSegments.

(** ** VersionRangeResolver: between two shipped releases

    Nothing is assumed of the shipped sequence here: it may list the latest
    version, and a release more than once. *)

Section VersionRangeSlices.
Variable shipped : list TsVersion.
Variable latest : TsVersion.

Local Abbreviation range := (range shipped latest).
Local Abbreviation position := (JsArray.indexOf shipped).

Lemma range_between minVersion maxVersion :
  minVersion ∈ shipped →
  minVersion ≠ "local" → minVersion ≠ latest →
  maxVersion ≠ "local" → maxVersion ≠ latest →
  position minVersion ≤ position maxVersion →
  range minVersion maxVersion
  = Return (take (S (Z.to_nat (position maxVersion)) - Z.to_nat (position minVersion))
              (drop (Z.to_nat (position minVersion)) shipped)).
Proof.
  intros Hmin Hmin1 Hmin2 Hmax1 Hmax2 Hle.
  pose proof (indexOf_elem _ _ Hmin) as Hi.
  pose proof (indexOf_range shipped maxVersion) as Hj.
  rewrite (range_unfold_shipped shipped latest) by done.
  unfold assert. rewrite (Zle_imp_le_bool 0 _) by lia.
  rewrite (Zle_imp_le_bool _ _ Hle). simpl.
  set (i := Z.to_nat (position minVersion)).
  set (j := Z.to_nat (position maxVersion)).
  assert (position minVersion = Z.of_nat i) as -> by lia.
  assert (position maxVersion + 1 = Z.of_nat (S j)) as -> by lia.
  f_equal. apply slice_bounded. lia.
Qed.


(** X5: ranges between shipped releases compose: for shipped [first],
    [middle] and [final], none of them ["local"] or the latest version, at
    positions in this order, the range from [first] to [final] is the range
    from [first] to [middle] followed by the range from [middle] to [final]
    without its first entry. *)
Theorem range_compose first middle final :
  first ∈ shipped → middle ∈ shipped → final ∈ shipped →
  first ≠ "local" → first ≠ latest →
  middle ≠ "local" → middle ≠ latest →
  final ≠ "local" → final ≠ latest →
  position first ≤ position middle ≤ position final →
  ∃ lower upper,
    range first middle = Return lower
    ∧ range middle final = Return (middle :: upper)
    ∧ range first final = Return (lower ++ upper).
Proof.
  intros Hfirst Hmiddle Hfinal Hfirst1 Hfirst2 Hmiddle1 Hmiddle2 Hfinal1 Hfinal2 [Hle1 Hle2].
  pose proof (indexOf_elem _ _ Hfirst) as Hi.
  pose proof (indexOf_elem _ _ Hmiddle) as Hj.
  pose proof (indexOf_elem _ _ Hfinal) as Hk.
  pose proof (indexOf_lookup _ _ Hmiddle) as Hlook.
  rewrite !range_between by (done || lia).
  set (i := Z.to_nat (position first)) in *.
  set (j := Z.to_nat (position middle)) in *.
  set (k := Z.to_nat (position final)) in *.
  exists (take (S j - i) (drop i shipped)), (take (k - j) (drop (S j) shipped)).
  split_and!.
  - done.
  - rewrite (drop_S _ _ _ Hlook). by replace (S k - j)%nat with (S (k - j)) by lia.
  - rewrite (take_drop_segments shipped i (S j) (S k)) by lia.
    by replace (S k - S j)%nat with (k - j)%nat by lia.
Qed.
End VersionRangeSlices.

(** ** ContentPolicyScanner: the two policies together *)

Section ScannerOutcomes.
Implicit Types (text pre rest pat : string) (p : nat).
Local Open Scope nat_scope.

Lemma substring_app_r pre s p n :
  String.substring (String.length pre + p) n (pre +:+ s) = String.substring p n s.
Proof. induction pre as [|c pre IH]; [done|]. rewrite append_String. simpl. apply IH. Qed.

Lemma substring_app_whole pat rest :
  String.substring 0 (String.length pat) (pat +:+ rest) = pat.
Proof.
  induction pat as [|c pat IH]; [by destruct rest|].
  rewrite append_String. simpl. by rewrite IH.
Qed.

Lemma occurs_at_app pat pre rest : occurs_at pat (pre +:+ pat +:+ rest) (String.length pre).
Proof.
  unfold occurs_at. rewrite <- (Nat.add_0_r (String.length pre)), substring_app_r.
  apply substring_app_whole.
Qed.

Lemma charAt_app pre s p :
  JsString.charAt (pre +:+ s) (String.length pre + p) = JsString.charAt s p.
Proof.
  unfold JsString.charAt.
  by rewrite (Nat.add_comm (String.length pre) p), <- String.append_correct2.
Qed.

Lemma testNoTsIgnore_first_bound text err :
  testNoTsIgnore text = Some err →
  message err = tsIgnore_message
  ∧ pos err + String.length tsIgnore ≤ String.length text.
Proof.
  unfold testNoTsIgnore.
  destruct (JsString.indexOf text tsIgnore 0) as [m|] eqn:Hidx; [|done].
  intros [= <-]. split; [done|].
  apply indexOf_Some in Hidx as (_ & Hocc & _).
  apply (occurs_at_bound tsIgnore text m Hocc). by left.
Qed.

(** X6: [testNoTsIgnore] returns nothing exactly when [ts-ignore] occurs
    nowhere in the text, and otherwise the first offset at which it occurs,
    wherever that is, with the fixed message; the occurrence it reports lies
    within the text. *)
Theorem testNoTsIgnore_first_occurrence text :
  (testNoTsIgnore text = None ↔ ∀ p, ¬ occurs_at tsIgnore text p)
  ∧ (∀ p, testNoTsIgnore text = Some {| pos := p; message := tsIgnore_message |}
          ↔ first_at (occurs_at tsIgnore text) p)
  ∧ (∀ err, testNoTsIgnore text = Some err →
            message err = tsIgnore_message
            ∧ pos err + String.length tsIgnore ≤ String.length text).
Proof.
  split; [apply testNoTsIgnore_None|]. split; [intros p; apply testNoTsIgnore_first|].
  apply testNoTsIgnore_first_bound.
Qed.

Lemma testNoTslintDisables_first text p :
  first_at (bare_disable_at text) p
  ↔ testNoTslintDisables text = Some {| pos := p; message := tslintDisable_message |}.
Proof.
  pose proof (testNoTslintDisables_sound text) as Hsound.
  destruct (testNoTslintDisables text) as [[m msg]|]; simpl in *.
  - destruct Hsound as [-> Hfirst]. split.
    + intros Hp. by rewrite (first_at_unique _ _ _ Hp Hfirst).
    + by intros [= ->].
  - split; [|done]. intros [Hbare _]. by destruct (Hsound p).
Qed.

Lemma contentPolicyError_None text :
  contentPolicyError text = None
  ↔ (∀ p, ¬ occurs_at tsIgnore text p) ∧ (∀ p, ¬ bare_disable_at text p).
Proof.
  unfold contentPolicyError.
  rewrite <- testNoTsIgnore_None, <- testNoTslintDisables_None.
  destruct (testNoTsIgnore text); [|by split; [|intros [_ ?]]].
  split; [done|by intros [? _]].
Qed.

(** X7: the check of a file's text finds nothing exactly when the text
    holds neither [ts-ignore] nor a bare [tslint:disable]; and a text without
    [ts-ignore] is reported for its first bare [tslint:disable], with the
    message of that policy. *)
Theorem contentPolicyError_outcomes text :
  (contentPolicyError text = None
   ↔ (∀ p, ¬ occurs_at tsIgnore text p) ∧ (∀ p, ¬ bare_disable_at text p))
  ∧ ((∀ p, ¬ occurs_at tsIgnore text p) →
     ∀ p, first_at (bare_disable_at text) p
          ↔ contentPolicyError text
            = Some {| pos := p; message := tslintDisable_message |}).
Proof.
  split; [apply contentPolicyError_None|].
  unfold contentPolicyError. intros ->%testNoTsIgnore_None p.
  apply testNoTslintDisables_first.
Qed.

(** X8: [tslint:disable] followed by anything but a hyphen or a colon is
    flagged wherever it stands: at the end of the text as well, where
    [charAt] yields the empty string. The violation reported is that
    occurrence or an earlier bare one. *)
Theorem testNoTslintDisables_unqualified pre rest :
  JsString.charAt rest 0 ≠ "-" → JsString.charAt rest 0 ≠ ":" →
  ∃ err,
    testNoTslintDisables (pre +:+ tslintDisable +:+ rest) = Some err
    ∧ pos err ≤ String.length pre
    ∧ message err = tslintDisable_message
    ∧ bare_disable_at (pre +:+ tslintDisable +:+ rest) (pos err).
Proof.
  intros Hhyphen Hcolon. set (text := pre +:+ tslintDisable +:+ rest).
  assert (bare_disable_at text (String.length pre)) as Hbare.
  { unfold bare_disable_at, text. split; [apply occurs_at_app|].
    rewrite charAt_app.
    change (String.length tslintDisable) with (String.length tslintDisable + 0).
    by rewrite charAt_app. }
  pose proof (testNoTslintDisables_sound text) as Hsound.
  destruct (testNoTslintDisables text) as [err|]; [|by destruct (Hsound (String.length pre))].
  destruct Hsound as (Hmsg & Hfirst & Hleast). exists err. split_and!; try done.
  destruct (decide (pos err ≤ String.length pre)) as [|Hlater]; [done|].
  destruct (Hleast (String.length pre)); [lia|done].
Qed.

Lemma substring_app_l text more p n :
  p + n ≤ String.length text →
  String.substring p n (text +:+ more) = String.substring p n text.
Proof.
  revert p n. induction text as [|c text IH]; intros p n Hle; simpl in Hle.
  - assert (p = 0 ∧ n = 0) as [-> ->] by lia. by destruct more.
  - rewrite append_String. destruct p as [|p]; simpl.
    + destruct n as [|n]; [done|]. f_equal. apply IH. lia.
    + apply IH. lia.
Qed.

Lemma occurs_at_app_l pat text more p :
  p + String.length pat ≤ String.length text →
  occurs_at pat (text +:+ more) p ↔ occurs_at pat text p.
Proof. intros Hle. unfold occurs_at. by rewrite substring_app_l. Qed.

Lemma charAt_app_l text more p :
  p < String.length text → JsString.charAt (text +:+ more) p = JsString.charAt text p.
Proof.
  intros Hp. unfold JsString.charAt. by rewrite <- String.append_correct1.
Qed.

Lemma bare_disable_at_app_l text more p :
  p + String.length tslintDisable < String.length text →
  bare_disable_at (text +:+ more) p ↔ bare_disable_at text p.
Proof.
  intros Hp. unfold bare_disable_at.
  by rewrite occurs_at_app_l, charAt_app_l by lia.
Qed.

(** X9: what a scan reports is settled by the text up to the reported
    directive: text appended to a file does not change the [ts-ignore]
    violation, and does not change the [tslint:disable] violation either,
    unless the reported [tslint:disable] ends the file, where the text
    appended may qualify it. *)
Theorem scan_of_extended_text text more err :
  (testNoTsIgnore text = Some err → testNoTsIgnore (text +:+ more) = Some err)
  ∧ (testNoTslintDisables text = Some err →
     pos err + String.length tslintDisable < String.length text →
     testNoTslintDisables (text +:+ more) = Some err).
Proof.
  split.
  - intros Herr.
    pose proof (testNoTsIgnore_first_bound text err Herr) as [Hmsg Hbound].
    destruct err as [p msg]. cbn [pos message] in *. subst msg.
    apply testNoTsIgnore_first in Herr as [Hocc Hleast].
    apply testNoTsIgnore_first. split.
    + by apply occurs_at_app_l.
    + intros q Hq Hocc'. apply (Hleast q Hq). apply occurs_at_app_l in Hocc'; [done|lia].
  - intros Herr Hbound.
    pose proof (testNoTslintDisables_sound text) as Hsound. rewrite Herr in Hsound.
    destruct err as [p msg], Hsound as [Hmsg [Hbare Hleast]].
    cbn [pos message] in *. subst msg.
    apply testNoTslintDisables_first. split.
    + by apply bare_disable_at_app_l.
    + intros q Hq Hbare'. apply (Hleast q Hq).
      apply bare_disable_at_app_l in Hbare'; [done|lia].
Qed.
End ScannerOutcomes.

(** ** PathPolicy: which paths are version-pinned *)

Section PathPolicyOutcomes.
Implicit Types (s p sub : string) (c : ascii).

Lemma skip_digits_app_digits digits s :
  all_digits digits = true → skip_digits (digits +:+ s) = skip_digits s.
Proof.
  induction digits as [|c digits IH]; [done|].
  intros [Hc Hdigits]%andb_true_iff. rewrite append_String. simpl. rewrite Hc. by apply IH.
Qed.

Lemma skip_digits_split s :
  ∃ digits, all_digits digits = true ∧ s = digits +:+ skip_digits s.
Proof.
  induction s as [|c s (digits & Hdigits & Hs)]; [by exists EmptyString|]. simpl.
  destruct (JsString.is_digit c) eqn:Hc.
  - exists (String c digits). simpl. rewrite Hc, append_String. by rewrite <- Hs.
  - by exists EmptyString.
Qed.

(** X10: the test of the relative path is the regular expression
    [/^\/ts\d+\.\d/]: it accepts exactly the strings that begin with [/ts],
    one or more digits, a dot and a digit; nothing is asked of what follows,
    and a path without the dot and the minor digit is not accepted. *)
Theorem ts_version_dir_test_spec s :
  ts_version_dir_test s = true ↔ ts_version_dir s.
Proof.
  split.
  - destruct s as [|c1 s]; [done|].
    destruct c1 as [[] [] [] [] [] [] [] []]; try done.
    destruct s as [|c2 s]; [done|].
    destruct c2 as [[] [] [] [] [] [] [] []]; try done.
    destruct s as [|c3 s]; [done|].
    destruct c3 as [[] [] [] [] [] [] [] []]; try done.
    destruct s as [|d s]; [done|]. simpl.
    intros [Hd Hrest]%andb_true_iff.
    destruct (skip_digits_split s) as (digits & Hdigits & Hs).
    destruct (skip_digits s) as [|c4 tail]; [done|].
    destruct c4 as [[] [] [] [] [] [] [] []]; try done.
    destruct tail as [|minor rest]; [done|].
    exists (String d digits), minor, rest. split_and!; try done.
    + simpl. by rewrite Hd.
    + rewrite Hs at 1. by rewrite !append_String.
  - intros (major & minor & rest & Hmajor & Hdigits & Hminor & ->).
    destruct major as [|d digits]; [done|]. simpl in Hdigits.
    apply andb_true_iff in Hdigits as [Hd Hdigits].
    rewrite !append_String. change (EmptyString +:+ ?x) with x. cbn [ts_version_dir_test].
    rewrite Hd, skip_digits_app_digits by done. simpl. by rewrite Hminor.
Qed.

Lemma substring_whole s : String.substring 0 (String.length s) s = s.
Proof. induction s as [|c s IH]; [done|]. simpl. by rewrite IH. Qed.

Lemma length_append s sub : String.length (s +:+ sub) = (String.length s + String.length sub)%nat.
Proof. induction s as [|c s IH]; [done|]. rewrite append_String. simpl. by rewrite IH. Qed.

Lemma prefix_split p s :
  String.prefix p s = true → s = p +:+ JsString.slice_from s (String.length p).
Proof.
  unfold JsString.slice_from. revert s. induction p as [|a p IH]; intros s.
  - intros _. simpl. by rewrite Nat.sub_0_r, substring_whole.
  - destruct s as [|b s]; [done|]. simpl.
    destruct (ascii_dec a b) as [->|]; [|done].
    intros Hprefix. rewrite append_String. f_equal. by apply IH.
Qed.

Lemma withoutPrefix_Some s p sub : withoutPrefix s p = Some sub ↔ s = p +:+ sub.
Proof.
  unfold withoutPrefix, JsString.startsWith. split.
  - destruct (String.prefix p s) eqn:Hprefix; [|done].
    intros [= <-]. by apply prefix_split.
  - intros ->.
    rewrite (proj2 (String.prefix_correct p (p +:+ sub)) (substring_app_whole p sub)).
    f_equal. unfold JsString.slice_from.
    rewrite <- (Nat.add_0_r (String.length p)) at 1.
    rewrite substring_app_r, length_append.
    replace (String.length p + String.length sub - String.length p)%nat
      with (String.length sub) by lia.
    apply substring_whole.
Qed.

Lemma withoutPrefix_None s p : withoutPrefix s p = None ↔ ∀ sub, s ≠ p +:+ sub.
Proof.
  split.
  - intros Hnone sub Hs%withoutPrefix_Some. congruence.
  - intros Hno. destruct (withoutPrefix s p) as [sub|] eqn:Hsub; [|done].
    by destruct (Hno sub); apply withoutPrefix_Some.
Qed.

Lemma append_empty_r s : s +:+ EmptyString = s.
Proof. induction s as [|c s IH]; [done|]. by rewrite append_String, IH. Qed.
End PathPolicyOutcomes.

Section PathPolicyVerdicts.
Variable normalize : string → string.

(** X11: a file is taken for version-pinned, and so left out of the
    structural lint of the latest pass, exactly when its normalized path is
    the normalized root followed by [/ts], digits, a dot and a digit. The
    root itself yields the empty string and a path that does not begin with
    the root yields [undefined]; both are falsy, so that such files are
    linted. *)
Theorem isTypesVersionPath_verdicts fileName dirPath :
  (truthy (isTypesVersionPath normalize fileName dirPath) = true
   ↔ ∃ sub, normalizePath normalize fileName = normalizePath normalize dirPath +:+ sub
            ∧ ts_version_dir sub)
  ∧ (isTypesVersionPath normalize fileName dirPath = js_empty_string
     ↔ normalizePath normalize fileName = normalizePath normalize dirPath)
  ∧ (isTypesVersionPath normalize fileName dirPath = js_undefined
     ↔ ∀ sub, normalizePath normalize fileName ≠ normalizePath normalize dirPath +:+ sub).
Proof.
  unfold isTypesVersionPath.
  destruct (withoutPrefix (normalizePath normalize fileName)
              (normalizePath normalize dirPath)) as [sub|] eqn:Hsub.
  - apply withoutPrefix_Some in Hsub as Hfile. rewrite Hfile.
    destruct (bool_decide_reflect (sub = EmptyString)) as [->|Hne]; simpl.
    + rewrite append_empty_r. split_and!.
      * split; [done|]. intros (sub & Heq & Hdir).
        rewrite <- (append_empty_r (normalizePath normalize dirPath)) in Heq at 1.
        apply (inj _) in Heq as <-.
        by destruct Hdir as (major & minor & rest & _ & _ & _ & Hsub').
      * done.
      * split; [done|]. intros Hno. destruct (Hno EmptyString). by rewrite append_empty_r.
    + split_and!.
      * rewrite ts_version_dir_test_spec. split.
        -- intros Hdir. by exists sub.
        -- intros (sub' & Heq & Hdir). by apply (inj _) in Heq as <-.
      * split; [done|]. intros Heq.
        rewrite <- (append_empty_r (normalizePath normalize dirPath)) in Heq at 2.
        by apply (inj _) in Heq.
      * split; [done|]. intros Hno. by destruct (Hno sub).
  - pose proof (proj1 (withoutPrefix_None _ _) Hsub) as Hno. simpl. split_and!.
    + split; [done|]. intros (sub & Heq & _). by destruct (Hno sub).
    + split; [done|]. intros Heq. destruct (Hno EmptyString). by rewrite append_empty_r.
    + done.
Qed.
End PathPolicyVerdicts.

(** ** ConfigResolver: what [getLintConfig] throws and what it changes *)

Section ConfigResolverOutcomes.
Variable shipped : list TsVersion.
Variable latest : TsVersion.
Variable typeScriptPath : TsVersion → option string → string.
Variable pathExists : string → bool.
Variable joinPaths : list string → string.
Variable __dirname : string.
Variable findConfiguration : string → completion (option IConfigurationFile).

Local Abbreviation getLintConfig :=
  (getLintConfig shipped latest typeScriptPath pathExists joinPaths __dirname
     findConfiguration).
Local Abbreviation effective_config_path :=
  (effective_config_path pathExists joinPaths __dirname).

(** X12: the failures of [getLintConfig], in the order in which it meets
    them: an exception of the configuration loader; no configuration at the
    path read, reported with that path, which is the built-in one when the
    project has no file of its own; the [expect] rule missing or not at
    severity ["error"]; and, only with the rule in place, the failed
    assertion of [range]. It throws in no other case. *)
Theorem getLintConfig_throws_iff expectedConfigPath tsconfigPath minVersion maxVersion
    tsLocal e :
  let configPath := effective_config_path expectedConfigPath in
  getLintConfig expectedConfigPath tsconfigPath minVersion maxVersion tsLocal = Throw e
  ↔ findConfiguration configPath = Throw e
    ∨ (findConfiguration configPath = Return None
       ∧ e = Error ("Could not load config at " +:+ configPath))
    ∨ (∃ config, findConfiguration configPath = Return (Some config)
                 ∧ rules config !! "expect" ≫= ruleSeverity ≠ Some error
                 ∧ e = Error expect_rule_message)
    ∨ (∃ config, findConfiguration configPath = Return (Some config)
                 ∧ rules config !! "expect" ≫= ruleSeverity = Some error
                 ∧ range shipped latest minVersion maxVersion = Throw e).
Proof.
  intros configPath. unfold getLintConfig. fold (effective_config_path expectedConfigPath).
  fold configPath.
  destruct (findConfiguration configPath) as [[config|]|e'] eqn:Hfind; simpl.
  - destruct (rules config !! "expect") as [rule|] eqn:Hrule; simpl.
    + destruct (bool_decide_reflect (ruleSeverity rule ≠ Some error)) as [Hseverity|Hseverity].
      * split.
        -- intros [= <-]. right. right. left. exists config. by rewrite Hrule.
        -- intros [?|[[? _]|[(config' & [= <-] & _ & ->)|(config' & [= <-] & Hok & _)]]];
             try done. rewrite Hrule in Hok. done.
      * apply dec_stable in Hseverity.
        destruct (range shipped latest minVersion maxVersion) as [versions|e'] eqn:Hrange;
          simpl.
        -- split; [done|].
           intros [?|[[? _]|[(config' & [= <-] & Hbad & _)|(config' & _ & _ & ?)]]];
             try done. rewrite Hrule in Hbad. done.
        -- split.
           ++ intros [= <-]. right. right. right. exists config. by rewrite Hrule.
           ++ intros [?|[[? _]|[(config' & [= <-] & Hbad & _)|(config' & _ & _ & [= <-])]]];
                try done. rewrite Hrule in Hbad. done.
    + split.
      * intros [= <-]. right. right. left. exists config. by rewrite Hrule.
      * intros [?|[[? _]|[(config' & [= <-] & _ & ->)|(config' & [= <-] & Hok & _)]]];
          try done. rewrite Hrule in Hok. done.
  - split.
    + intros [= <-]. right. by left.
    + intros [?|[[_ ->]|[(config' & ? & _)|(config' & ? & _)]]]; done.
  - split.
    + intros [= <-]. by left.
    + intros [[= <-]|[[? _]|[(config' & ? & _)|(config' & ? & _)]]]; done.
Qed.

(** X13: a configuration that [getLintConfig] returns is the one it loaded,
    changed in the arguments of the [expect] rule and nowhere else: the other
    rules and the other parts are as loaded, the rule keeps its severity, and
    its arguments, whatever they were, are replaced by the one options object
    that holds the project descriptor and, for each version of the range and
    in the order of the range, its name and the path that [typeScriptPath]
    gives for it. *)
Theorem getLintConfig_result expectedConfigPath tsconfigPath minVersion maxVersion
    tsLocal config' :
  getLintConfig expectedConfigPath tsconfigPath minVersion maxVersion tsLocal
  = Return config' →
  ∃ config versions versionsToTest,
    findConfiguration (effective_config_path expectedConfigPath) = Return (Some config)
    ∧ range shipped latest minVersion maxVersion = Return versions
    ∧ extends config' = extends config
    ∧ jsRules config' = jsRules config
    ∧ rulesDirectory config' = rulesDirectory config
    ∧ (∀ name, name ≠ "expect" → rules config' !! name = rules config !! name)
    ∧ rules config' !! "expect"
      = Some {| ruleArguments :=
                  Some [expect_argument {| tsconfigPath := tsconfigPath;
                                           versionsToTest := versionsToTest |}];
                ruleSeverity := Some error |}
    ∧ versionName <$> versionsToTest = versions
    ∧ Forall (λ v, path v = typeScriptPath (versionName v) tsLocal) versionsToTest
    ∧ head (versionName <$> versionsToTest) = Some minVersion
    ∧ last (versionName <$> versionsToTest) = Some maxVersion.
Proof.
  unfold getLintConfig. fold (effective_config_path expectedConfigPath).
  destruct (findConfiguration _) as [[config|]|] eqn:Hfind; simpl; try done.
  destruct (rules config !! "expect") as [rule|] eqn:Hrule; simpl; [|done].
  destruct (bool_decide_reflect (ruleSeverity rule ≠ Some error)) as [|Hseverity]; [done|].
  apply dec_stable in Hseverity.
  destruct (range shipped latest minVersion maxVersion) as [versions|] eqn:Hrange;
    simpl; [|done].
  intros [= <-].
  set (entry := λ versionName : string,
         {| versionName := versionName; path := typeScriptPath versionName tsLocal |}).
  assert (versionName <$> (entry <$> versions) = versions) as Hnames.
  { clear Hrange. induction versions as [|v versions IH]; [done|].
    rewrite !fmap_cons. by rewrite IH. }
  destruct (range_Return_bounds _ _ _ _ _ Hrange) as (_ & Hhead & Hlast).
  exists config, versions, (entry <$> versions). simpl.
  split_and!; try done.
  - intros name Hname. by rewrite lookup_insert_ne.
  - by rewrite lookup_insert_eq, Hseverity.
  - apply Forall_fmap, Forall_forall. done.
  - by rewrite Hnames.
  - by rewrite Hnames.
Qed.
End ConfigResolverOutcomes.

(** ** LintOrchestrator: the outcomes of a run *)

Section LintOrchestratorOutcomes.
Variable shipped : list TsVersion.
Variable latest : TsVersion.
Variable typeScriptPath : TsVersion → option string → string.
Variable pathExists : string → bool.
Variable joinPaths : list string → string.
Variable __dirname : string.
Variable findConfiguration : string → completion (option IConfigurationFile).
Variable normalize : string → string.
Variable createProgram : string → completion Program.
Variable RuleFailure : Type.
Variable applyAllRules :
  Program → string → string → IConfigurationFile → completion (list RuleFailure).
Variable format : string → list RuleFailure → string.

Local Abbreviation Linter := (Linter RuleFailure).
Local Abbreviation lint_files := (lint_files normalize RuleFailure applyAllRules).
Local Abbreviation lint :=
  (lint shipped latest typeScriptPath pathExists joinPaths __dirname findConfiguration
     normalize createProgram RuleFailure applyAllRules format).
Local Abbreviation getLintConfig :=
  (getLintConfig shipped latest typeScriptPath pathExists joinPaths __dirname
     findConfiguration).

Implicit Types (lintProgram : Program) (config : IConfigurationFile)
  (file : SourceFile) (files before after : list SourceFile) (linter : Linter)
  (dirPath : string) (isLatest : bool).

Lemma handed_to_engine_true lintProgram dirPath isLatest file :
  handed_to_engine normalize lintProgram dirPath isLatest file = true
  ↔ structurally_linted normalize lintProgram dirPath isLatest file.
Proof.
  unfold handed_to_engine, structurally_linted.
  rewrite andb_true_iff, negb_true_iff. done.
Qed.

(** One pass of the loop over a file that is not of the default library
    and whose text is not reported. *)
Lemma lint_files_cons_unreported lintProgram dirPath isLatest config file files linter :
  isSourceFileDefaultLibrary lintProgram file = false →
  (if negb (JsString.includes (fileName file) "node_modules")
   then contentPolicyError (text file) else None) = None →
  lint_files lintProgram dirPath isLatest config (file :: files) linter
  = linter' ← (if handed_to_engine normalize lintProgram dirPath isLatest file
               then Linter_lint RuleFailure applyAllRules linter (fileName file)
                      (text file) config
               else Return linter);
    lint_files lintProgram dirPath isLatest config files linter'.
Proof.
  intros Hlib Herr. simpl. rewrite Hlib, Herr.
  unfold handed_to_engine. by rewrite Hlib.
Qed.

Lemma lint_files_cons_outcome lintProgram dirPath isLatest config file files linter :
  (isSourceFileDefaultLibrary lintProgram file = true
   ∧ lint_files lintProgram dirPath isLatest config (file :: files) linter
     = lint_files lintProgram dirPath isLatest config files linter)
  ∨ (∃ err, content_scanned lintProgram file
            ∧ contentPolicyError (text file) = Some err
            ∧ lint_files lintProgram dirPath isLatest config (file :: files) linter
              = Return (inl (content_report file err)))
  ∨ (isSourceFileDefaultLibrary lintProgram file = false
     ∧ (content_scanned lintProgram file → contentPolicyError (text file) = None)
     ∧ lint_files lintProgram dirPath isLatest config (file :: files) linter
       = linter' ← (if handed_to_engine normalize lintProgram dirPath isLatest file
                    then Linter_lint RuleFailure applyAllRules linter (fileName file)
                           (text file) config
                    else Return linter);
         lint_files lintProgram dirPath isLatest config files linter').
Proof.
  destruct (isSourceFileDefaultLibrary lintProgram file) eqn:Hlib.
  { left. split; [done|]. simpl. by rewrite Hlib. }
  right.
  destruct (if negb (JsString.includes (fileName file) "node_modules")
            then contentPolicyError (text file) else None) as [err|] eqn:Herr.
  - left. exists err.
    destruct (JsString.includes (fileName file) "node_modules") eqn:Hdep; [done|].
    simpl in Herr. split_and!; [done|done|]. simpl. by rewrite Hlib, Hdep, Herr.
  - right. split_and!; [done| |by apply lint_files_cons_unreported].
    intros [_ Hdep]. by rewrite Hdep in Herr.
Qed.

(** A loop that falls through has met no directive in the files it
    scanned, and has added to the failures of the linter those of each file
    it handed to the rule engine. *)
Lemma lint_files_falls_through lintProgram dirPath isLatest config files linter linter' :
  lint_files lintProgram dirPath isLatest config files linter = Return (inr linter') →
  options linter' = options linter ∧ program linter' = program linter
  ∧ (∀ file, file ∈ files → content_scanned lintProgram file →
             contentPolicyError (text file) = None)
  ∧ ∃ extra,
      failures linter' = failures linter ++ extra
      ∧ ∀ file, file ∈ files → structurally_linted normalize lintProgram dirPath isLatest file →
          ∃ fs earlier later,
            applyAllRules (program linter) (fileName file) (text file) config = Return fs
            ∧ extra = earlier ++ fs ++ later.
Proof.
  revert linter. induction files as [|file files IH]; intros linter.
  { intros [= <-]. split_and!; try done.
    - intros file Hin. by apply elem_of_nil in Hin.
    - exists []. split; [by rewrite app_nil_r|]. intros file Hin. by apply elem_of_nil in Hin. }
  destruct (lint_files_cons_outcome lintProgram dirPath isLatest config file files linter)
    as [[Hlib ->]|[(err & _ & _ & ->)|(Hlib & Hclean & ->)]]; [|done|].
  - intros (Hoptions & Hprogram & Hscan & extra & Hfailures & Hengine)%IH.
    split_and!; try done.
    + intros f [->|Hin]%elem_of_cons Hf; [destruct Hf; congruence|by apply Hscan].
    + exists extra. split; [done|].
      intros f [->|Hin]%elem_of_cons Hf; [destruct Hf; congruence|]. by apply Hengine.
  - destruct (handed_to_engine normalize lintProgram dirPath isLatest file) eqn:Hhanded.
    + unfold Linter_lint.
      destruct (applyAllRules (program linter) (fileName file) (text file) config)
        as [fs|] eqn:Hrules; simpl; [|done].
      intros (Hoptions & Hprogram & Hscan & extra & Hfailures & Hengine)%IH.
      simpl in *. split_and!; try done.
      * intros f [->|Hin]%elem_of_cons Hf; [by apply Hclean|by apply Hscan].
      * exists (fs ++ extra). split; [by rewrite Hfailures, app_assoc|].
        intros f [->|Hin]%elem_of_cons Hf.
        -- by exists fs, [], extra.
        -- destruct (Hengine f Hin Hf) as (fs' & pre & post & Hfs' & ->).
           exists fs', (fs ++ pre), post. split; [done|]. by rewrite <- app_assoc.
    + simpl. intros (Hoptions & Hprogram & Hscan & extra & Hfailures & Hengine)%IH.
      split_and!; try done.
      * intros f [->|Hin]%elem_of_cons Hf; [by apply Hclean|by apply Hscan].
      * exists extra. split; [done|].
        intros f [->|Hin]%elem_of_cons Hf; [|by apply Hengine].
        apply handed_to_engine_true in Hf. congruence.
Qed.

(** The loop throws only what the rule engine throws on a file handed to
    it. *)
Lemma lint_files_throws lintProgram dirPath isLatest config files linter e :
  lint_files lintProgram dirPath isLatest config files linter = Throw e →
  ∃ file, file ∈ files
          ∧ structurally_linted normalize lintProgram dirPath isLatest file
          ∧ applyAllRules (program linter) (fileName file) (text file) config = Throw e.
Proof.
  revert linter. induction files as [|file files IH]; intros linter; [done|].
  destruct (lint_files_cons_outcome lintProgram dirPath isLatest config file files linter)
    as [[Hlib ->]|[(err & _ & _ & ->)|(Hlib & Hclean & ->)]]; [|done|].
  - intros (f & Hin & Hf & Hthrow)%IH. exists f. split; [by apply list_elem_of_further|done].
  - destruct (handed_to_engine normalize lintProgram dirPath isLatest file) eqn:Hhanded.
    + unfold Linter_lint.
      destruct (applyAllRules (program linter) (fileName file) (text file) config)
        as [fs|e'] eqn:Hrules; simpl.
      * intros (f & Hin & Hf & Hthrow)%IH. exists f.
        split; [by apply list_elem_of_further|done].
      * intros [= <-]. exists file. split_and!; [apply list_elem_of_here| |done].
        by apply handed_to_engine_true.
    + simpl. intros (f & Hin & Hf & Hthrow)%IH. exists f.
      split; [by apply list_elem_of_further|done].
Qed.

(** A report that ends the loop is the report of a directive in a file that
    was scanned. *)
Lemma lint_files_reports lintProgram dirPath isLatest config files linter report :
  lint_files lintProgram dirPath isLatest config files linter = Return (inl report) →
  ∃ file err, file ∈ files ∧ content_scanned lintProgram file
              ∧ contentPolicyError (text file) = Some err
              ∧ report = content_report file err.
Proof.
  revert linter. induction files as [|file files IH]; intros linter; [done|].
  destruct (lint_files_cons_outcome lintProgram dirPath isLatest config file files linter)
    as [[Hlib ->]|[(err & Hscan & Herr & ->)|(Hlib & Hclean & ->)]].
  - intros (f & err & Hin & Hf)%IH. exists f, err.
    split; [by apply list_elem_of_further|done].
  - intros [= <-]. exists file, err. split; [apply list_elem_of_here|done].
  - destruct (if handed_to_engine normalize lintProgram dirPath isLatest file then _ else _)
      as [linter1|]; simpl; [|done].
    intros (f & err & Hin & Hf)%IH. exists f, err.
    split; [by apply list_elem_of_further|done].
Qed.

Lemma lint_files_found lintProgram dirPath isLatest config files linter
    (found : SourceFile → list RuleFailure) :
  (∀ file, file ∈ files → content_scanned lintProgram file →
           contentPolicyError (text file) = None) →
  (∀ file, file ∈ files → structurally_linted normalize lintProgram dirPath isLatest file →
           applyAllRules (program linter) (fileName file) (text file) config
           = Return (found file)) →
  lint_files lintProgram dirPath isLatest config files linter
  = Return (inr {| options := options linter; program := program linter;
                   failures :=
                     failures linter
                     ++ concat (found <$> filter
                                  (λ file, handed_to_engine normalize lintProgram dirPath
                                             isLatest file = true) files) |}).
Proof.
  revert linter. induction files as [|file files IH]; intros linter Hclean Hrules.
  { simpl. rewrite app_nil_r. by destruct linter. }
  assert (∀ f, f ∈ files → content_scanned lintProgram f →
               contentPolicyError (text f) = None) as Hclean'.
  { intros f Hin. apply Hclean. by apply list_elem_of_further. }
  destruct (lint_files_cons_outcome lintProgram dirPath isLatest config file files linter)
    as [[Hlib ->]|[(err & Hscan & Herr & _)|(Hlib & _ & ->)]].
  - rewrite filter_cons_False.
    + apply IH; [done|]. intros f Hin. apply Hrules. by apply list_elem_of_further.
    + unfold handed_to_engine. by rewrite Hlib.
  - rewrite (Hclean file) in Herr; [done|apply list_elem_of_here|done].
  - destruct (handed_to_engine normalize lintProgram dirPath isLatest file) eqn:Hhanded.
    + rewrite filter_cons_True by done. unfold Linter_lint.
      rewrite (Hrules file); [|apply list_elem_of_here|by apply handed_to_engine_true].
      simpl. rewrite IH; [|done|].
      * simpl. by rewrite app_assoc.
      * intros f Hin. simpl. apply Hrules. by apply list_elem_of_further.
    + rewrite filter_cons_False by congruence. simpl.
      apply IH; [done|]. intros f Hin. apply Hrules. by apply list_elem_of_further.
Qed.

(** X14: a run throws for three reasons only: the program cannot be built;
    the configuration cannot be loaded, is misconfigured or has an invalid
    range, in which case no file is looked at, whatever the files hold; or
    the rule engine throws on a file handed to it. A directive in a file is
    reported and never thrown. *)
Theorem lint_throws (dirPath : string) (minVersion maxVersion : TsVersion)
    (isLatest expectOnly : bool) (tsLocal : option string) e :
  let tsconfigPath := joinPaths [dirPath; "tsconfig.json"] in
  let configPath :=
    if expectOnly then joinPaths [__dirname; ".."; "dtslint-expect-only.json"]
    else getConfigPath joinPaths dirPath in
  let run := lint dirPath minVersion maxVersion isLatest expectOnly tsLocal in
  (createProgram tsconfigPath = Throw e → run = Throw e)
  ∧ (∀ lintProgram,
       createProgram tsconfigPath = Return lintProgram →
       getLintConfig configPath tsconfigPath minVersion maxVersion tsLocal = Throw e →
       run = Throw e)
  ∧ (run = Throw e →
     createProgram tsconfigPath = Throw e
     ∨ (∃ lintProgram,
          createProgram tsconfigPath = Return lintProgram
          ∧ getLintConfig configPath tsconfigPath minVersion maxVersion tsLocal = Throw e)
     ∨ (∃ lintProgram config file,
          createProgram tsconfigPath = Return lintProgram
          ∧ getLintConfig configPath tsconfigPath minVersion maxVersion tsLocal
            = Return config
          ∧ file ∈ getSourceFiles lintProgram
          ∧ structurally_linted normalize lintProgram dirPath isLatest file
          ∧ applyAllRules lintProgram (fileName file) (text file) config = Throw e)).
Proof.
  intros tsconfigPath configPath run. unfold run, lint. fold tsconfigPath.
  split_and!.
  - by intros ->.
  - intros lintProgram -> Hconfig. simpl. fold tsconfigPath configPath. by rewrite Hconfig.
  - destruct (createProgram tsconfigPath) as [lintProgram|e'] eqn:Hprogram; simpl;
      [|intros [= <-]; by left].
    fold tsconfigPath configPath.
    destruct (getLintConfig configPath tsconfigPath minVersion maxVersion tsLocal)
      as [config|e'] eqn:Hconfig; simpl; [|intros [= <-]; right; left; by exists lintProgram].
    destruct (lint_files _ _ _ _ _ _) as [[report|linter']|e'] eqn:Hloop; simpl; [done..|].
    intros [= <-]. apply lint_files_throws in Hloop as (file & Hin & Hfile & Hthrow).
    right. right. by exists lintProgram, config, file.
Qed.

(** X15: the converse of C8. A run that returns [undefined] has built the
    program and loaded a configuration, has found neither [ts-ignore] nor a
    bare [tslint:disable] in any file it scanned, and has got no failure from
    the rule engine for any file handed to it. *)
Theorem lint_no_violations_only_if (dirPath : string) (minVersion maxVersion : TsVersion)
    (isLatest expectOnly : bool) (tsLocal : option string) :
  let tsconfigPath := joinPaths [dirPath; "tsconfig.json"] in
  let configPath :=
    if expectOnly then joinPaths [__dirname; ".."; "dtslint-expect-only.json"]
    else getConfigPath joinPaths dirPath in
  lint dirPath minVersion maxVersion isLatest expectOnly tsLocal = Return None →
  ∃ lintProgram config,
    createProgram tsconfigPath = Return lintProgram
    ∧ getLintConfig configPath tsconfigPath minVersion maxVersion tsLocal = Return config
    ∧ (∀ file, file ∈ getSourceFiles lintProgram → content_scanned lintProgram file →
               (∀ p, ¬ occurs_at tsIgnore (text file) p)
               ∧ (∀ p, ¬ bare_disable_at (text file) p))
    ∧ (∀ file, file ∈ getSourceFiles lintProgram →
               structurally_linted normalize lintProgram dirPath isLatest file →
               applyAllRules lintProgram (fileName file) (text file) config = Return []).
Proof.
  intros tsconfigPath configPath. unfold lint. fold tsconfigPath.
  destruct (createProgram tsconfigPath) as [lintProgram|] eqn:Hprogram; simpl; [|done].
  fold tsconfigPath configPath.
  destruct (getLintConfig configPath tsconfigPath minVersion maxVersion tsLocal)
    as [config|] eqn:Hconfig; simpl; [|done].
  destruct (lint_files _ _ _ _ _ _) as [[report|linter']|] eqn:Hloop; simpl; [done| |done].
  case_bool_decide as Hnone; [done|]. intros _.
  apply lint_files_falls_through
    in Hloop as (_ & _ & Hscan & extra & Hfailures & Hengine).
  simpl in *. subst extra.
  assert (failures linter' = []) as Hempty.
  { by apply nil_length_inv. }
  exists lintProgram, config. split_and!; try done.
  - intros file Hin Hfile. by apply contentPolicyError_None, Hscan.
  - intros file Hin Hfile.
    destruct (Hengine file Hin Hfile) as (fs & earlier & later & -> & Hparts).
    rewrite Hempty in Hparts. symmetry in Hparts.
    apply app_eq_nil in Hparts as [_ [-> _]%app_eq_nil]. done.
Qed.

(** X16: with no directive in the files that are scanned, the run returns
    the failures that the rule engine finds in the files handed to it,
    gathered in the order of the files and rendered by the [stylish]
    formatter, and [undefined] when there is none. *)
Theorem lint_structural_report (dirPath : string) (minVersion maxVersion : TsVersion)
    (isLatest expectOnly : bool) (tsLocal : option string) lintProgram config
    (found : SourceFile → list RuleFailure) :
  let tsconfigPath := joinPaths [dirPath; "tsconfig.json"] in
  let configPath :=
    if expectOnly then joinPaths [__dirname; ".."; "dtslint-expect-only.json"]
    else getConfigPath joinPaths dirPath in
  let gathered :=
    concat (found <$> filter (λ file, handed_to_engine normalize lintProgram dirPath
                                        isLatest file = true)
                        (getSourceFiles lintProgram)) in
  createProgram tsconfigPath = Return lintProgram →
  getLintConfig configPath tsconfigPath minVersion maxVersion tsLocal = Return config →
  (∀ file, file ∈ getSourceFiles lintProgram → content_scanned lintProgram file →
           (∀ p, ¬ occurs_at tsIgnore (text file) p)
           ∧ (∀ p, ¬ bare_disable_at (text file) p)) →
  (∀ file, file ∈ getSourceFiles lintProgram →
           structurally_linted normalize lintProgram dirPath isLatest file →
           applyAllRules lintProgram (fileName file) (text file) config
           = Return (found file)) →
  lint dirPath minVersion maxVersion isLatest expectOnly tsLocal
  = Return (match gathered with
            | [] => None
            | _ :: _ => Some (format "stylish" gathered)
            end).
Proof.
  intros tsconfigPath configPath gathered Hprogram Hconfig Hclean Hrules.
  unfold lint. fold tsconfigPath. rewrite Hprogram. simpl.
  fold tsconfigPath configPath. rewrite Hconfig. simpl.
  rewrite (lint_files_found lintProgram dirPath isLatest config _ _ found).
  - simpl. fold gathered. by destruct gathered.
  - intros file Hin Hfile. by apply contentPolicyError_None, Hclean.
  - done.
Qed.

(** X17: the run reports the first directive of the first file that has
    one. When the loop reaches a file that is scanned, the report names the
    first offset of [ts-ignore] in its text; for a text without [ts-ignore],
    it names the first bare [tslint:disable], with the message of that
    policy. The files after it and the findings of the rule engine do not
    matter. *)
Theorem lint_reports_first_directive (dirPath : string) (minVersion maxVersion : TsVersion)
    (isLatest expectOnly : bool) (tsLocal : option string)
    lintProgram config before file after linter p :
  let tsconfigPath := joinPaths [dirPath; "tsconfig.json"] in
  let configPath :=
    if expectOnly then joinPaths [__dirname; ".."; "dtslint-expect-only.json"]
    else getConfigPath joinPaths dirPath in
  let run := lint dirPath minVersion maxVersion isLatest expectOnly tsLocal in
  createProgram tsconfigPath = Return lintProgram →
  getLintConfig configPath tsconfigPath minVersion maxVersion tsLocal = Return config →
  getSourceFiles lintProgram = before ++ file :: after →
  lint_files lintProgram dirPath isLatest config before
    (new_Linter RuleFailure {| fix_ := false; formatter := "stylish" |} lintProgram)
  = Return (inr linter) →
  content_scanned lintProgram file →
  (first_at (occurs_at tsIgnore (text file)) p →
   run = Return (Some (content_report file {| pos := p; message := tsIgnore_message |})))
  ∧ ((∀ q, ¬ occurs_at tsIgnore (text file) q) →
     first_at (bare_disable_at (text file)) p →
     run = Return (Some (content_report file
                           {| pos := p; message := tslintDisable_message |}))).
Proof.
  intros tsconfigPath configPath run Hprogram Hconfig Hfiles Hbefore [Hlib Hdep].
  assert (∀ err, contentPolicyError (text file) = Some err →
                 run = Return (Some (content_report file err))) as Hreport.
  { intros err Herr. unfold run, lint. fold tsconfigPath. rewrite Hprogram. simpl.
    fold tsconfigPath configPath. rewrite Hconfig. simpl.
    rewrite Hfiles, lint_files_app, Hbefore. simpl. by rewrite Hlib, Hdep, Herr. }
  split.
  - intros Hfirst%testNoTsIgnore_first. apply Hreport.
    unfold contentPolicyError. by rewrite Hfirst.
  - intros Hnone%testNoTsIgnore_None Hfirst%testNoTslintDisables_first.
    apply Hreport. unfold contentPolicyError. by rewrite Hnone.
Qed.

(** X18: every text that a run returns is the report of a directive in a
    file that was scanned, or, with no directive in any scanned file, the
    [stylish] rendering of at least one failure of the rule engine. *)
Theorem lint_report_origin (dirPath : string) (minVersion maxVersion : TsVersion)
    (isLatest expectOnly : bool) (tsLocal : option string) report :
  let tsconfigPath := joinPaths [dirPath; "tsconfig.json"] in
  let configPath :=
    if expectOnly then joinPaths [__dirname; ".."; "dtslint-expect-only.json"]
    else getConfigPath joinPaths dirPath in
  lint dirPath minVersion maxVersion isLatest expectOnly tsLocal = Return (Some report) →
  ∃ lintProgram config,
    createProgram tsconfigPath = Return lintProgram
    ∧ getLintConfig configPath tsconfigPath minVersion maxVersion tsLocal = Return config
    ∧ ((∃ file err,
          file ∈ getSourceFiles lintProgram ∧ content_scanned lintProgram file
          ∧ contentPolicyError (text file) = Some err
          ∧ report = content_report file err)
       ∨ ((∀ file, file ∈ getSourceFiles lintProgram → content_scanned lintProgram file →
                   contentPolicyError (text file) = None)
          ∧ ∃ gathered, gathered ≠ [] ∧ report = format "stylish" gathered)).
Proof.
  intros tsconfigPath configPath. unfold lint. fold tsconfigPath.
  destruct (createProgram tsconfigPath) as [lintProgram|] eqn:Hprogram; simpl; [|done].
  fold tsconfigPath configPath.
  destruct (getLintConfig configPath tsconfigPath minVersion maxVersion tsLocal)
    as [config|] eqn:Hconfig; simpl; [|done].
  destruct (lint_files _ _ _ _ _ _) as [[report'|linter']|] eqn:Hloop; simpl; [| |done].
  - intros [= <-]. exists lintProgram, config. split_and!; [done..|]. left.
    by apply lint_files_reports in Hloop.
  - case_bool_decide as Hsome; [|done]. intros [= <-].
    exists lintProgram, config. split_and!; [done..|]. right.
    apply lint_files_falls_through in Hloop as (Hoptions & _ & Hscan & _).
    split; [done|]. exists (failures linter'). rewrite Hoptions. split; [|done].
    intros Hnil. rewrite Hnil in Hsome. done.
Qed.
End LintOrchestratorOutcomes.

(** ** LintOrchestrator: what the rule engine is shown *)

Section LintOrchestratorEngines.
Variable shipped : list TsVersion.
Variable latest : TsVersion.
Variable typeScriptPath : TsVersion → option string → string.
Variable pathExists : string → bool.
Variable joinPaths : list string → string.
Variable __dirname : string.
Variable findConfiguration : string → completion (option IConfigurationFile).
Variable normalize : string → string.
Variable createProgram : string → completion Program.
Variable RuleFailure : Type.
Variable format : string → list RuleFailure → string.
(** Two rule engines. *)
Variable applyAllRules applyAllRules' :
  Program → string → string → IConfigurationFile → completion (list RuleFailure).

Lemma lint_files_engines lintProgram dirPath isLatest config files
    (linter : Linter RuleFailure) :
  (∀ file, file ∈ files → structurally_linted normalize lintProgram dirPath isLatest file →
           applyAllRules (program linter) (fileName file) (text file) config
           = applyAllRules' (program linter) (fileName file) (text file) config) →
  lint_files normalize RuleFailure applyAllRules lintProgram dirPath isLatest config
    files linter
  = lint_files normalize RuleFailure applyAllRules' lintProgram dirPath isLatest config
      files linter.
Proof.
  revert linter. induction files as [|file files IH]; intros linter Hagree; [done|].
  assert (∀ linter1 : Linter RuleFailure,
            program linter1 = program linter →
            lint_files normalize RuleFailure applyAllRules lintProgram dirPath isLatest
              config files linter1
            = lint_files normalize RuleFailure applyAllRules' lintProgram dirPath isLatest
                config files linter1) as Hrest.
  { intros linter1 Hprogram. apply IH. intros f Hin Hf. rewrite Hprogram.
    apply Hagree; [by apply list_elem_of_further|done]. }
  simpl. destruct (isSourceFileDefaultLibrary lintProgram file) eqn:Hlib; [by apply Hrest|].
  destruct (if negb _ then contentPolicyError _ else None); [done|].
  destruct (negb isLatest || _) eqn:Hlinted; simpl; [|by apply Hrest].
  unfold Linter_lint. rewrite <- (Hagree file (list_elem_of_here _ _) (conj Hlib Hlinted)).
  destruct (applyAllRules (program linter) (fileName file) (text file) config); simpl;
    [by apply Hrest|done].
Qed.

(** X19: the rule engine is shown only the files that are structurally
    linted: two engines that agree on those files of the program give the
    same run. What an engine would find in a file of the default library,
    or, in the pass for the latest version, in a version-pinned file, has no
    effect. *)
Theorem lint_engine_sees_linted_files (dirPath : string)
    (minVersion maxVersion : TsVersion) (isLatest expectOnly : bool)
    (tsLocal : option string) :
  (∀ lintProgram config file,
     createProgram (joinPaths [dirPath; "tsconfig.json"]) = Return lintProgram →
     file ∈ getSourceFiles lintProgram →
     structurally_linted normalize lintProgram dirPath isLatest file →
     applyAllRules lintProgram (fileName file) (text file) config
     = applyAllRules' lintProgram (fileName file) (text file) config) →
  lint shipped latest typeScriptPath pathExists joinPaths __dirname findConfiguration
    normalize createProgram RuleFailure applyAllRules format
    dirPath minVersion maxVersion isLatest expectOnly tsLocal
  = lint shipped latest typeScriptPath pathExists joinPaths __dirname findConfiguration
      normalize createProgram RuleFailure applyAllRules' format
      dirPath minVersion maxVersion isLatest expectOnly tsLocal.
Proof.
  intros Hagree. unfold lint.
  destruct (createProgram (joinPaths [dirPath; "tsconfig.json"]))
    as [lintProgram|] eqn:Hprogram; simpl; [|done].
  destruct (getLintConfig _ _ _ _ _ _ _ _ _ _ _ _) as [config|]; simpl; [|done].
  rewrite (lint_files_engines lintProgram dirPath isLatest config); [done|].
  intros file Hin Hfile. by apply Hagree.
Qed.
End LintOrchestratorEngines.

(** ** The further properties on the stand-ins *)

Section OutcomeRuns.
Local Open Scope nat_scope.

Lemma range_endpoints_witness :
  range Fixture.shipped Fixture.latest "3.9" "4.1" = Return ["3.9"; "4.0"; "4.1"]
  ∧ ["3.9"; "4.0"; "4.1"] ≠ []
  ∧ head ["3.9"; "4.0"; "4.1"] = Some "3.9"
  ∧ last ["3.9"; "4.0"; "4.1"] = Some "4.1".
Proof.
  split; [compute_done|].
  apply (range_endpoints Fixture.shipped Fixture.latest "3.9" "4.1"). compute_done.
Defined.

Lemma range_up_to_latest_witness :
  ∃ versions,
    range Fixture.shipped Fixture.latest "4.0" Fixture.latest
    = Return (versions ++ [Fixture.latest])
    ∧ (∀ v, v ∈ versions
            ↔ v ∈ Fixture.shipped
              ∧ (JsArray.indexOf Fixture.shipped "4.0" ≤ JsArray.indexOf Fixture.shipped v)%Z)
    ∧ NoDup (versions ++ [Fixture.latest])
    ∧ StronglySorted (released_before Fixture.shipped) versions.
Proof.
  apply (range_up_to_latest Fixture.shipped Fixture.latest fixture_shipped_NoDup
           fixture_local_not_shipped fixture_latest_not_shipped "4.0"); compute_done.
Defined.

Lemma range_compose_witness :
  ∃ lower upper,
    range Fixture.shipped Fixture.latest "3.8" "4.0" = Return lower
    ∧ range Fixture.shipped Fixture.latest "4.0" "4.1" = Return ("4.0" :: upper)
    ∧ range Fixture.shipped Fixture.latest "3.8" "4.1" = Return (lower ++ upper).
Proof.
  apply (range_compose Fixture.shipped Fixture.latest "3.8" "4.0" "4.1");
    compute_done.
Defined.



Lemma testNoTslintDisables_unqualified_witness :
  ∃ err,
    testNoTslintDisables ("/* x */ // " +:+ tslintDisable +:+ EmptyString) = Some err
    ∧ pos err ≤ 11
    ∧ message err = tslintDisable_message
    ∧ bare_disable_at ("/* x */ // " +:+ tslintDisable +:+ EmptyString) (pos err).
Proof.
  apply (testNoTslintDisables_unqualified "/* x */ // " EmptyString); compute_done.
Defined.

Local Abbreviation fixture_getLintConfig :=
  (getLintConfig Fixture.shipped Fixture.latest Fixture.typeScriptPath Fixture.pathExists
     Fixture.joinPaths Fixture.__dirname Fixture.findConfiguration).

Lemma getLintConfig_result_witness :
  ∃ config',
    fixture_getLintConfig "/p/tslint.json" "/p/tsconfig.json" "3.9" "4.1" None
    = Return config'
    ∧ ∃ versionsToTest,
        rules config' !! "expect"
        = Some {| ruleArguments :=
                    Some [expect_argument {| tsconfigPath := "/p/tsconfig.json";
                                             versionsToTest := versionsToTest |}];
                  ruleSeverity := Some error |}
        ∧ versionName <$> versionsToTest = ["3.9"; "4.0"; "4.1"].
Proof.
  destruct (fixture_getLintConfig "/p/tslint.json" "/p/tsconfig.json" "3.9" "4.1" None)
    as [config'|] eqn:Hconfig; [|by vm_compute in Hconfig].
  exists config'. split; [done|].
  destruct (getLintConfig_result Fixture.shipped Fixture.latest Fixture.typeScriptPath
              Fixture.pathExists Fixture.joinPaths Fixture.__dirname
              Fixture.findConfiguration _ _ _ _ _ _ Hconfig)
    as (config & versions & versionsToTest & _ & Hrange & _ & _ & _ & _ & Hrule & Hnames & _).
  exists versionsToTest. split; [done|]. rewrite Hnames.
  vm_compute in Hrange. by injection Hrange as <-.
Defined.

Lemma lint_no_violations_only_if_witness :
  Fixture.lint "/clean" "3.9" "4.1" true false None = Return None
  ∧ ∃ lintProgram config,
      Fixture.createProgram "/clean/tsconfig.json" = Return lintProgram
      ∧ (∀ file, file ∈ getSourceFiles lintProgram →
                 structurally_linted NodePath.posix_normalize lintProgram "/clean" true file →
                 Fixture.applyAllRules lintProgram (fileName file) (text file) config
                 = Return []).
Proof.
  assert (Fixture.lint "/clean" "3.9" "4.1" true false None = Return None) as Hrun
    by compute_done.
  split; [done|].
  destruct (lint_no_violations_only_if Fixture.shipped Fixture.latest
              Fixture.typeScriptPath Fixture.pathExists Fixture.joinPaths
              Fixture.__dirname Fixture.findConfiguration NodePath.posix_normalize
              Fixture.createProgram string Fixture.applyAllRules Fixture.format
              "/clean" "3.9" "4.1" true false None Hrun)
    as (lintProgram & config & Hprogram & _ & _ & Hrules).
  by exists lintProgram, config.
Defined.

Lemma lint_structural_report_witness :
  Fixture.lint "/loose" "3.9" "4.1" false false None
  = Return (Some (Fixture.format "stylish" ["/loose/index.d.ts: no any"])).
Proof.
  eapply (lint_structural_report Fixture.shipped Fixture.latest Fixture.typeScriptPath
            Fixture.pathExists Fixture.joinPaths Fixture.__dirname
            Fixture.findConfiguration NodePath.posix_normalize Fixture.createProgram
            string Fixture.applyAllRules Fixture.format
            "/loose" "3.9" "4.1" false false None
            (Fixture.program_of [Fixture.source_file "/loose/index.d.ts" Fixture.loose;
                                 Fixture.source_file "/loose/other.d.ts" Fixture.forty])
            _ Blanket.found).
  - compute_done.
  - vm_compute. reflexivity.
  - intros file Hin _. simpl in Hin. rewrite !elem_of_cons, elem_of_nil in Hin.
    destruct Hin as [->|[->|[]]];
      (split; [apply testNoTsIgnore_None|apply testNoTslintDisables_None]; compute_done).
  - intros file Hin _. simpl in Hin. rewrite !elem_of_cons, elem_of_nil in Hin.
    destruct Hin as [->|[->|[]]]; compute_done.
Defined.

Lemma lint_reports_first_directive_witness :
  let file := Fixture.source_file "/blanket/index.d.ts" "/* x */ // tslint:disable" in
  first_at (bare_disable_at (text file)) 11
  ∧ Blanket.lint "/blanket" "3.9" "4.1" false false None
    = Return (Some (content_report file {| pos := 11; message := tslintDisable_message |})).
Proof.
  intros file.
  assert (first_at (bare_disable_at (text file)) 11) as Hfirst.
  { split; [compute_done|]. intros q Hq.
    do 11 (destruct q as [|q]; [compute_done|]). lia. }
  split; [done|].
  eapply (lint_reports_first_directive Fixture.shipped Fixture.latest
            Fixture.typeScriptPath Fixture.pathExists Fixture.joinPaths Fixture.__dirname
            Fixture.findConfiguration NodePath.posix_normalize Blanket.createProgram
            string Fixture.applyAllRules Fixture.format
            "/blanket" "3.9" "4.1" false false None
            (Fixture.program_of [file]) _ [] file []).
  - compute_done.
  - vm_compute. reflexivity.
  - reflexivity.
  - reflexivity.
  - split; compute_done.
  - apply testNoTsIgnore_None. compute_done.
  - done.
Defined.

Lemma lint_report_origin_witness :
  Fixture.lint "/loose" "3.9" "4.1" false false None
  = Return (Some "/loose/index.d.ts: no any")
  ∧ ∃ lintProgram,
      Fixture.createProgram "/loose/tsconfig.json" = Return lintProgram
      ∧ ((∃ file err,
            file ∈ getSourceFiles lintProgram ∧ content_scanned lintProgram file
            ∧ contentPolicyError (text file) = Some err
            ∧ "/loose/index.d.ts: no any" = content_report file err)
         ∨ ((∀ file, file ∈ getSourceFiles lintProgram → content_scanned lintProgram file →
                     contentPolicyError (text file) = None)
            ∧ ∃ gathered, gathered ≠ []
                          ∧ "/loose/index.d.ts: no any" = Fixture.format "stylish" gathered)).
Proof.
  assert (Fixture.lint "/loose" "3.9" "4.1" false false None
          = Return (Some "/loose/index.d.ts: no any")) as Hrun by compute_done.
  split; [done|].
  destruct (lint_report_origin Fixture.shipped Fixture.latest
              Fixture.typeScriptPath Fixture.pathExists Fixture.joinPaths
              Fixture.__dirname Fixture.findConfiguration NodePath.posix_normalize
              Fixture.createProgram string Fixture.applyAllRules Fixture.format
              "/loose" "3.9" "4.1" false false None _ Hrun)
    as (lintProgram & config & Hprogram & _ & Horigin).
  by exists lintProgram.
Defined.

Lemma lint_engine_sees_linted_files_witness :
  lint Fixture.shipped Fixture.latest Fixture.typeScriptPath Fixture.pathExists
    Fixture.joinPaths Fixture.__dirname Fixture.findConfiguration
    NodePath.posix_normalize Fixture.createProgram string Fixture.applyAllRules
    Fixture.format "/clean" "3.9" "4.1" true false None
  = lint Fixture.shipped Fixture.latest Fixture.typeScriptPath Fixture.pathExists
      Fixture.joinPaths Fixture.__dirname Fixture.findConfiguration
      NodePath.posix_normalize Fixture.createProgram string Blanket.strict_engine
      Fixture.format "/clean" "3.9" "4.1" true false None.
Proof.
  apply lint_engine_sees_linted_files.
  intros lintProgram config file Hprogram Hin [Hlib Hlinted].
  vm_compute in Hprogram. injection Hprogram as <-.
  simpl in Hin. rewrite !elem_of_cons, elem_of_nil in Hin.
  destruct Hin as [->|[->|[->|[]]]];
    [by vm_compute in Hlib|reflexivity|by vm_compute in Hlinted].
Defined.
End OutcomeRuns.
